(** * GitHub RSS aggregator: fetch pipeline, TTL cache and auto-refresh

    A shallow embedding of [github_rss_aggregator.py]: the per-repository
    fetch ([fetch_repo_releases]), the fan-out and merge
    ([fetch_all_releases]), the lock-protected cache ([get_cached_data],
    [refresh], [save_settings_route], the invalidating routes) and the
    background worker ([auto_refresh_worker], [restart_auto_refresh],
    [stop_auto_refresh]).

    Conventions of the embedding:
    - a Python [str] is the list of its code points ([pystr]); [<] on
      strings is Python's lexicographic order on code points;
    - everything the outside world decides (HTTP answers, the parsed feed,
      clock readings, the completion order of the thread pool) is an
      explicit argument of the function that consumes it; every network
      call is taken to return, with an answer or with an exception;
    - a reading of [time.time()] and a duration are integers, in seconds;
    - threads are interleaved at the points where the program sleeps,
      waits for [cache['lock']] or rebuilds;
    - code that may raise lives in the monad [M], which also records the
      network requests and log lines a call emits;
    - [html.unescape] is the standard library's table-driven function and
      is taken as a parameter of the development. *)

From Stdlib Require Import String Ascii ZArith NArith Bool Lia.
From Stdlib Require Import List Permutation Sorted Relations.
Import ListNotations.

(** ** Python strings *)

Module Py.

Definition pystr := list N.

(** A literal: the code points of an ASCII string. *)
Definition py (s : string) : pystr :=
  map N_of_ascii (list_ascii_of_string s).

(** Truthiness of a [str]: non-empty. *)
Definition truthy (s : pystr) : bool :=
  match s with [] => false | _ :: _ => true end.

(** [a < b], [a == b], [a > b] on strings: code point by code point, a
    proper prefix is smaller. *)
Fixpoint str_compare (a b : pystr) : comparison :=
  match a, b with
  | [], [] => Eq
  | [], _ :: _ => Lt
  | _ :: _, [] => Gt
  | x :: a', y :: b' =>
      match N.compare x y with
      | Eq => str_compare a' b'
      | c => c
      end
  end.

Definition str_ltb (a b : pystr) : bool :=
  match str_compare a b with Lt => true | _ => false end.

Definition str_eqb (a b : pystr) : bool :=
  match str_compare a b with Eq => true | _ => false end.

(** [c in s] for a one-character needle. *)
Definition contains (c : N) (s : pystr) : bool := existsb (N.eqb c) s.

(** [s.split(sep)] for a one-character separator: never empty. *)
Fixpoint split (sep : N) (s : pystr) : list pystr :=
  match s with
  | [] => [[]]
  | c :: s' =>
      if N.eqb c sep then [] :: split sep s'
      else match split sep s' with
           | h :: t => (c :: h) :: t
           | [] => [[c]]
           end
  end.

(** [s[:n]] *)
Definition slice_to (n : nat) (s : pystr) : pystr := firstn n s.

Definition slash : N := 47.

End Py.
Import Py.

(** ** Exceptions, events and the monad of effectful code *)

(** The exception classes the handlers of the program tell apart.
    [requests.exceptions.Timeout] and [ConnectionError] are subclasses of
    [RequestException]; everything else caught by [except Exception] is
    [OtherException]. *)
Inductive exn : Type :=
| Timeout
| ConnectionError
| RequestException
| OtherException.

Definition headers := list (pystr * pystr).

(** A network request as the program issues it.  [requests.head] is called
    with [timeout=REQUEST_TIMEOUT]; [feedparser.parse(url)] is called with
    the URL alone. *)
Inductive request : Type :=
| requests_head (url : pystr) (hdrs : headers) (timeout : option Z)
| feedparser_parse (url : pystr).

Inductive level : Type := Info | Warning | Error.

(** The log lines of the modelled functions, by what they report. *)
Inductive message : Type :=
| msg_no_release_page (repo : pystr)
| msg_status_code (repo : pystr) (code : Z)
| msg_bozo (repo : pystr)
| msg_no_entries (repo : pystr)
| msg_timeout (repo : pystr)
| msg_connection (repo : pystr)
| msg_request_error (repo : pystr)
| msg_unknown_error (repo : pystr)
| msg_task_error (repo : pystr)
| msg_fetch_start (n : nat)
| msg_fetch_done (ok total items : nat)
| msg_cache_hit
| msg_cache_miss
| msg_warmup_skipped
| msg_warmup_start
| msg_warmup_done (items : nat)
| msg_warmup_failed
| msg_refresh_cleared
| msg_refresh_done
| msg_refresh_failed
| msg_auto_refresh_stopped
| msg_auto_refresh_started
| msg_auto_refresh_tick
| msg_auto_refresh_done
| msg_auto_refresh_failed
| msg_stopping_existing
| msg_restarted
| msg_settings_refresh
| msg_settings_refresh_done (items : nat)
| msg_settings_refresh_failed.

Inductive event : Type :=
| Request (r : request)
| Log (l : level) (m : message)
| FetchAll.   (* one invocation of fetch_all_releases *)

Inductive result (A : Type) : Type :=
| Ok (a : A)
| Raise (e : exn).
Arguments Ok {A} a.
Arguments Raise {A} e.

(** A computation: the events it emitted, and its value or the exception
    it raised. *)
Definition M (A : Type) : Type := (list event * result A)%type.

Definition ret {A} (a : A) : M A := ([], Ok a).

Definition bind {A B} (c : M A) (k : A -> M B) : M B :=
  match c with
  | (t, Ok a) => let '(t', r) := k a in (t ++ t', r)
  | (t, Raise e) => (t, Raise e)
  end.

Definition raise {A} (e : exn) : M A := ([], Raise e).

Definition emit (ev : event) : M unit := ([ev], Ok tt).

Definition log (l : level) (m : message) : M unit := emit (Log l m).

(** [try: c  except Exception as e: h e] *)
Definition try_except {A} (c : M A) (h : exn -> M A) : M A :=
  match c with
  | (t, Ok a) => (t, Ok a)
  | (t, Raise e) => let '(t', r) := h e in (t ++ t', r)
  end.

Declare Scope py_scope.
Delimit Scope py_scope with py.
Notation "x <- c ;; k" := (bind c (fun x => k))
  (at level 61, c at next level, right associativity) : py_scope.
Notation "c ;; k" := (bind c (fun _ => k))
  (at level 61, right associativity) : py_scope.
Local Open Scope py_scope.

Definition trace {A} (c : M A) : list event := fst c.
Definition outcome {A} (c : M A) : result A := snd c.

Definition requests_of (t : list event) : list request :=
  flat_map (fun ev => match ev with Request r => [r] | _ => [] end) t.

Definition is_head (r : request) : bool :=
  match r with requests_head _ _ _ => true | _ => false end.

Definition is_parse (r : request) : bool :=
  match r with feedparser_parse _ => true | _ => false end.

(** The timeout a request was issued with, if any. *)
Definition request_timeout (r : request) : option Z :=
  match r with
  | requests_head _ _ t => t
  | feedparser_parse _ => None
  end.

(** ** Configuration constants *)

Definition MAX_ENTRIES : nat := 100.
Definition REQUEST_TIMEOUT : Z := 10.
Definition MAX_WORKERS : nat := 20.
Definition DEFAULT_CACHE_DURATION : Z := 300.
Definition DEFAULT_AUTO_REFRESH_INTERVAL : Z := 1800.
Definition DEFAULT_STARTUP_REFRESH : bool := true.

(** ** Data *)

(** An entry of the parsed Atom feed, with the keys and attributes the
    program reads.  [None] is an absent key.  [e_author_detail] is [Some d]
    when the attribute exists and is truthy, [d] being its optional
    ['name']. *)
Record feed_entry : Type := {
  e_updated : option pystr;
  e_published : option pystr;
  e_author_detail : option (option pystr);
  e_author : option pystr;
  e_summary : option pystr;
  e_description : option pystr;
  e_title : option pystr;
  e_link : option pystr;
  e_id : option pystr
}.

(** The result of [feedparser.parse]: the [bozo] flag (set when the
    document is not well-formed) and the [entries] attribute, [None] when
    the attribute is missing. *)
Record feed : Type := {
  bozo : bool;
  entries : option (list feed_entry)
}.

(** The dict built for one release ([entry_data]). *)
Record entry_data : Type := {
  title : pystr;
  link : pystr;
  updated : pystr;
  author : pystr;
  summary : pystr;
  repo : pystr;
  id : pystr
}.

(** What the world answers to one call of [fetch_repo_releases]: the token
    on disk or in the environment, the answer to the HEAD request, the
    outcome of [feedparser.parse], and [datetime.now(timezone.utc)
    .isoformat()]. *)
Inductive head_response : Type :=
| HeadStatus (status_code : Z)
| HeadRaises (e : exn).

Inductive parse_response : Type :=
| Parsed (f : feed)
| ParseRaises (e : exn).

Record response : Type := {
  github_token : pystr;
  head : head_response;
  parsed : parse_response;
  now_iso : pystr
}.

(** [d.get(k, default)] on an optional key. *)
Definition get {A} (v : option A) (default : A) : A :=
  match v with Some x => x | None => default end.

(** The default title, three CJK code points. *)
Definition default_title : pystr := [26032; 21457; 24067]%N.

Definition releases_atom_url (repo : pystr) : pystr :=
  py "https://github.com/" ++ repo ++ py "/releases.atom".

Definition releases_url (repo : pystr) : pystr :=
  py "https://github.com/" ++ repo ++ py "/releases".

Definition base_headers : headers :=
  [ (py "User-Agent", py "GitHub-RSS-Aggregator/1.0");
    (py "Accept", py "application/atom+xml, application/xml, text/xml") ].

Definition request_headers (token : pystr) : headers :=
  if truthy token
  then base_headers ++ [(py "Authorization", py "token " ++ token)]
  else base_headers.

(** [requests.head(url, headers=headers, timeout=REQUEST_TIMEOUT)] *)
Definition do_head (url : pystr) (hdrs : headers) (w : response) : M Z :=
  emit (Request (requests_head url hdrs (Some REQUEST_TIMEOUT))) ;;
  match head w with
  | HeadStatus c => ret c
  | HeadRaises e => raise e
  end.

(** [feedparser.parse(url)] *)
Definition do_parse (url : pystr) (w : response) : M feed :=
  emit (Request (feedparser_parse url)) ;;
  match parsed w with
  | Parsed f => ret f
  | ParseRaises e => raise e
  end.

(** [repo.split('/')[-1] if '/' in repo else repo] *)
Definition repo_name (repo : pystr) : pystr :=
  if contains slash repo then last (split slash repo) [] else repo.

Definition author_name (entry : feed_entry) : pystr :=
  match e_author_detail entry with
  | Some d => get d []
  | None =>
      match e_author entry with
      | Some a => a
      | None => []
      end
  end.

Definition updated_time (entry : feed_entry) (w : response) : pystr :=
  let u := get (e_updated entry) (get (e_published entry) []) in
  if truthy u then u else now_iso w.

Section Aggregator.

(** [html.unescape] *)
Variable html_unescape : pystr -> pystr.

(** The summary as stored: unescaped, then capped at 500 characters. *)
Definition stored_summary (entry : feed_entry) : pystr :=
  let s := get (e_summary entry) (get (e_description entry) []) in
  if truthy s then
    let s := html_unescape s in
    if (500 <? length s)%nat then slice_to 500 s ++ py "..." else s
  else s.

Definition make_entry_data (repo : pystr) (entry : feed_entry) (w : response)
  : entry_data :=
  {| title := repo_name repo ++ py " - " ++ get (e_title entry) default_title;
     link := get (e_link entry) (releases_url repo);
     updated := updated_time entry w;
     author := author_name entry;
     summary := stored_summary entry;
     repo := repo;
     id := get (e_id entry) (get (e_link entry) []) |}.

(** The body of the [try] block of [fetch_repo_releases].  Every [return
    entries] before the append returns the empty list. *)
Definition fetch_repo_releases_try (repo : pystr) (w : response)
  : M (list entry_data) :=
  let url := releases_atom_url repo in
  let hdrs := request_headers (github_token w) in
  status <- do_head url hdrs w ;;
  if (status =? 404)%Z then
    log Warning (msg_no_release_page repo) ;; ret []
  else if negb (status =? 200)%Z then
    log Warning (msg_status_code repo status) ;; ret []
  else
    f <- do_parse url w ;;
    (if bozo f then log Warning (msg_bozo repo) else ret tt) ;;
    match entries f with
    | None | Some [] => log Warning (msg_no_entries repo) ;; ret []
    | Some (entry :: _) => ret [make_entry_data repo entry w]
    end.

(** The handlers of [fetch_repo_releases], in the order they are written.
    [entries] is still empty whenever one of them runs. *)
Definition fetch_repo_releases_except (repo : pystr) (e : exn)
  : M (list entry_data) :=
  match e with
  | Timeout => log Error (msg_timeout repo)
  | ConnectionError => log Error (msg_connection repo)
  | RequestException => log Error (msg_request_error repo)
  | OtherException => log Error (msg_unknown_error repo)
  end ;;
  ret [].

Definition fetch_repo_releases (repo : pystr) (w : response)
  : M (list entry_data) :=
  try_except (fetch_repo_releases_try repo w) (fetch_repo_releases_except repo).

(** ** Merging *)

(** [all_entries.sort(key=lambda x: x["updated"], reverse=True)]: a stable
    sort into descending key order.  An element is placed before the first
    one whose key is not greater than its own, so equal keys keep the order
    in which they arrived. *)
Fixpoint insert_desc (x : entry_data) (l : list entry_data) : list entry_data :=
  match l with
  | [] => [x]
  | y :: l' =>
      if str_ltb (updated x) (updated y) then y :: insert_desc x l'
      else x :: y :: l'
  end.

Fixpoint sort_updated_desc (l : list entry_data) : list entry_data :=
  match l with
  | [] => []
  | x :: l' => insert_desc x (sort_updated_desc l')
  end.

(** The loop over [as_completed(future_to_repo)].  [net i] is the world's
    answer to the task submitted for the [i]-th repository, [order] the
    indices of the tasks in the order they complete.  The state of the loop
    is [(all_entries, successful_repos)]. *)
Definition future_result (repos : list pystr) (net : nat -> response) (i : nat)
  : M (list entry_data) :=
  match nth_error repos i with
  | Some r => fetch_repo_releases r (net i)
  | None => ret []
  end.

Definition collect_step (repos : list pystr) (net : nat -> response)
  (acc : list entry_data * nat) (i : nat) : M (list entry_data * nat) :=
  try_except
    (es <- future_result repos net i ;;
     match es with
     | [] => ret acc
     | _ :: _ => ret (fst acc ++ es, S (snd acc))
     end)
    (fun _ => log Error (msg_task_error (nth i repos [])) ;; ret acc).

Fixpoint collect (repos : list pystr) (net : nat -> response)
  (order : list nat) (acc : list entry_data * nat) : M (list entry_data * nat) :=
  match order with
  | [] => ret acc
  | i :: order' =>
      acc' <- collect_step repos net acc i ;;
      collect repos net order' acc'
  end.

(** [fetch_all_releases], given the list [load_repos()] returned. *)
Definition fetch_all_releases (repos : list pystr) (net : nat -> response)
  (order : list nat) : M (list entry_data) :=
  emit FetchAll ;;
  match repos with
  | [] => ret []
  | _ :: _ =>
      log Info (msg_fetch_start (length repos)) ;;
      acc <- collect repos net order ([], 0%nat) ;;
      let all_entries := sort_updated_desc (fst acc) in
      log Info (msg_fetch_done (snd acc) (length repos) (length all_entries)) ;;
      ret all_entries
  end.

(** ** The cache and the shared state *)

(** The [settings] dict; its three keys are always present. *)
Record settings : Type := {
  cache_duration : Z;
  auto_refresh_interval : Z;
  startup_refresh : bool
}.

Definition default_settings : settings :=
  {| cache_duration := DEFAULT_CACHE_DURATION;
     auto_refresh_interval := DEFAULT_AUTO_REFRESH_INTERVAL;
     startup_refresh := DEFAULT_STARTUP_REFRESH |}.

(** The document [create_rss_feed] builds, kept as the data that determines
    it: the entry count of the channel description, the two clock readings
    of [lastBuildDate] and [pubDate], the [ttl] in minutes and the entries
    rendered as items.  Its serialisation to XML text is not modelled. *)
Record rss_xml : Type := {
  rss_count : nat;
  rss_lastBuildDate : Z;
  rss_pubDate : Z;
  rss_ttl : Z;
  rss_items : list entry_data
}.

(** The [cache] dict without its lock. *)
Record cache : Type := {
  data : option rss_xml;
  timestamp : Z
}.

(** The module's globals. [refresh_thread] holds the identifier of a
    thread. *)
Record state : Type := {
  settings_of : settings;
  cache_of : cache;
  auto_refresh_running : bool;
  refresh_thread : option nat
}.

(** What the world supplies to one rebuild: the list [load_repos()]
    returns, the answers of the network, the completion order of the pool
    and the clock readings of [create_rss_feed]. *)
Record rebuild_io : Type := {
  io_repos : list pystr;
  io_net : nat -> response;
  io_order : list nat;
  io_lastBuildDate : Z;
  io_pubDate : Z
}.

Definition set_cache (st : state) (c : cache) : state :=
  {| settings_of := settings_of st;
     cache_of := c;
     auto_refresh_running := auto_refresh_running st;
     refresh_thread := refresh_thread st |}.

Definition set_running (st : state) (b : bool) : state :=
  {| settings_of := settings_of st;
     cache_of := cache_of st;
     auto_refresh_running := b;
     refresh_thread := refresh_thread st |}.

Definition set_settings (st : state) (cfg : settings) : state :=
  {| settings_of := cfg;
     cache_of := cache_of st;
     auto_refresh_running := auto_refresh_running st;
     refresh_thread := refresh_thread st |}.

Definition set_refresh_thread (st : state) (t : option nat) : state :=
  {| settings_of := settings_of st;
     cache_of := cache_of st;
     auto_refresh_running := auto_refresh_running st;
     refresh_thread := t |}.

(** [cache['data'] = None; cache['timestamp'] = 0] *)
Definition clear_cache (st : state) : state :=
  set_cache st {| data := None; timestamp := 0 |}.

(** [cache['data'] = rss_xml; cache['timestamp'] = t] *)
Definition store_cache (st : state) (rss : rss_xml) (t : Z) : state :=
  set_cache st {| data := Some rss; timestamp := t |}.

Definition create_rss_feed (s : settings) (io : rebuild_io)
  (entries : list entry_data) : rss_xml :=
  {| rss_count := length entries;
     rss_lastBuildDate := io_lastBuildDate io;
     rss_pubDate := io_pubDate io;
     rss_ttl := (cache_duration s / 60)%Z;
     rss_items := firstn MAX_ENTRIES entries |}.

(** [entries = fetch_all_releases(); rss_xml = create_rss_feed(entries)] *)
Definition rebuild (s : settings) (io : rebuild_io)
  : M (list entry_data * rss_xml) :=
  entries <- fetch_all_releases (io_repos io) (io_net io) (io_order io) ;;
  ret (entries, create_rss_feed s io entries).

(** The test of [get_cached_data]: the stored document when it is served. *)
Definition cache_hit (st : state) (current_time : Z) : option rss_xml :=
  match data (cache_of st) with
  | Some d =>
      if (current_time - timestamp (cache_of st)
            <? cache_duration (settings_of st))%Z
      then Some d else None
  | None => None
  end.

(** [get_cached_data], run without interference: the whole body is inside
    [with cache['lock']].  [current_time] is the clock read on entry. *)
Definition get_cached_data (st : state) (current_time : Z) (io : rebuild_io)
  : M (rss_xml * state) :=
  match cache_hit st current_time with
  | Some d => log Info msg_cache_hit ;; ret (d, st)
  | None =>
      log Info msg_cache_miss ;;
      r <- rebuild (settings_of st) io ;;
      ret (snd r, store_cache st (snd r) current_time)
  end.


(** [startup_cache_warmup]; [env_startup_refresh] is the module constant
    [STARTUP_REFRESH], [t_store] the clock read inside the lock. *)
Definition startup_cache_warmup (env_startup_refresh : bool) (st : state)
  (io : rebuild_io) (t_store : Z) : M state :=
  if negb (env_startup_refresh && startup_refresh (settings_of st)) then
    log Info msg_warmup_skipped ;; ret st
  else
    log Info msg_warmup_start ;;
    try_except
      (r <- rebuild (settings_of st) io ;;
       log Info (msg_warmup_done (length (fst r))) ;;
       ret (store_cache st (snd r) t_store))
      (fun _ => log Error msg_warmup_failed ;; ret st).

(** The [/refresh] route: the new state and the HTTP status. *)
Definition refresh (st : state) (io : rebuild_io) (t_store : Z)
  : M (state * Z) :=
  let st1 := clear_cache st in
  try_except
    (log Info msg_refresh_cleared ;;
     r <- rebuild (settings_of st1) io ;;
     log Info msg_refresh_done ;;
     ret (store_cache st1 (snd r) t_store, 200%Z))
    (fun _ => log Error msg_refresh_failed ;; ret (st1, 500%Z)).

(** The [/save_token] and [/save_repos] routes, [saved] being the result of
    writing the file: the cache is invalidated after a successful save. *)
Definition save_token (saved : bool) (st : state) : state * Z :=
  if saved then (clear_cache st, 200%Z) else (st, 500%Z).

Definition save_repos_route (saved : bool) (st : state) : state * Z :=
  if saved then (clear_cache st, 200%Z) else (st, 500%Z).

(** The body of one tick of [auto_refresh_worker] (the block under
    [if auto_refresh_running]), run without interference. *)
Definition auto_refresh_tick (st : state) (io : rebuild_io) (t_store : Z)
  : M state :=
  log Info msg_auto_refresh_tick ;;
  let st1 := clear_cache st in
  try_except
    (r <- rebuild (settings_of st1) io ;;
     log Info msg_auto_refresh_done ;;
     ret (store_cache st1 (snd r) t_store))
    (fun _ => log Error msg_auto_refresh_failed ;; ret st1).

(** The [/stop_auto_refresh] route. *)
Definition stop_auto_refresh (st : state) : M state :=
  log Info msg_auto_refresh_stopped ;;
  ret (set_running st false).

(** The invariant of the cache entry. *)
Definition cache_invariant (c : cache) : Prop :=
  data c <> None <-> (0 < timestamp c)%Z.

Definition count_fetch_all (t : list event) : nat :=
  length (filter (fun ev => match ev with FetchAll => true | _ => false end) t).

(** ** Threads

    The program runs a background worker next to the request handlers.
    Each thread is at a control point ([pc]); a step runs a thread up to
    its next control point.  The control points are the places where a
    thread blocks or where another thread may run in between: [time.sleep],
    the acquisition of [cache['lock']], and the rebuild, which takes time.
    A block under [with cache['lock']] that neither sleeps nor fetches is
    one step, enabled when the lock is free. *)

Inductive pc : Type :=
(* auto_refresh_worker *)
| W_start                       (* before [auto_refresh_running = True] *)
| W_loop                        (* at the [while] test *)
| W_sleeping (wake : Z)         (* in [time.sleep(interval)] *)
| W_clearing                    (* before the first [with cache['lock']] *)
| W_fetching                    (* before [fetch_all_releases()] *)
| W_storing (rss : rss_xml)     (* before the second [with cache['lock']] *)
(* get_cached_data *)
| G_waiting                     (* before [with cache['lock']] *)
| G_fetching (current_time : Z) (* lock held, before [fetch_all_releases()] *)
(* refresh *)
| Refresh_clearing
| Refresh_fetching
| Refresh_storing (rss : rss_xml)
(* save_token, save_repos_route after a successful save *)
| Invalidate_clearing
(* stop_auto_refresh *)
| Stop_start
(* restart_auto_refresh; the route start_auto_refresh_route runs the
   same statements *)
| Restart_start
| Restart_sleeping (wake : Z)   (* in [time.sleep(1)] *)
(* save_settings_route: the values of the form and whether
   [save_settings()] succeeds; then whether the interval changed *)
| Settings_start (duration interval : Z) (startup saved : bool)
| Settings_clearing (restart : bool)
| Settings_fetching (restart : bool)
| Settings_storing (rss : rss_xml) (items : nat) (restart : bool)
(* startup_cache_warmup, [env] being the constant [STARTUP_REFRESH] *)
| Warmup_start (env : bool)
| Warmup_storing (rss : rss_xml) (items : nat)
(* the main program: [refresh_thread = start_auto_refresh()] *)
| Main_start
| Finished.

(** What a thread was seen to do: an event, or the document it served. *)
Inductive observation : Type :=
| Ev (e : event)
| Served (d : rss_xml).

Record world : Type := {
  now : Z;                                (* the clock *)
  shared : state;                         (* the module's globals *)
  lock : option nat;                      (* holder of [cache['lock']] *)
  threads : list pc;                      (* by thread identifier *)
  history : list (nat * observation)      (* oldest first *)
}.

Inductive action : Type :=
| Tick (dt : Z)                           (* time passes *)
| Arrive (p : pc)                         (* a new thread at an entry point *)
| Step (tid : nat) (io : rebuild_io).     (* thread [tid] runs to its next control point *)

Definition is_entry (p : pc) : bool :=
  match p with
  | G_waiting | Refresh_clearing | Invalidate_clearing
  | Stop_start | Restart_start | Settings_start _ _ _ _
  | Warmup_start _ | Main_start => true
  | _ => false
  end.

(** [t.is_alive()] *)
Definition is_alive (ths : list pc) (t : option nat) : bool :=
  match t with
  | None => false
  | Some tid =>
      match nth_error ths tid with
      | Some Finished | None => false
      | Some _ => true
      end
  end.

Fixpoint set_nth {A} (n : nat) (x : A) (l : list A) : list A :=
  match l, n with
  | [], _ => []
  | _ :: l', O => x :: l'
  | y :: l', S n' => y :: set_nth n' x l'
  end.

Definition tagged (tid : nat) (t : list event) : list (nat * observation) :=
  map (fun e => (tid, Ev e)) t.

(** The result of running thread [tid] from its control point: the new
    globals, lock and thread table, and what was observed. *)
Record step_result : Type := {
  sr_shared : state;
  sr_lock : option nat;
  sr_threads : list pc;
  sr_seen : list observation
}.

Definition goto (st : state) (lk : option nat) (ths : list pc) (tid : nat)
  (p : pc) (seen : list observation) : option step_result :=
  Some {| sr_shared := st; sr_lock := lk;
          sr_threads := set_nth tid p ths; sr_seen := seen |}.

Definition lock_free (lk : option nat) : bool :=
  match lk with None => true | Some _ => false end.

(** [start_auto_refresh()] called by thread [tid], which then stores the
    new thread in [refresh_thread] and moves to [p]. *)
Definition spawn_worker (st : state) (lk : option nat) (ths : list pc)
  (tid : nat) (p : pc) (seen : list observation) : option step_result :=
  Some {| sr_shared := set_refresh_thread st (Some (length ths));
          sr_lock := lk;
          sr_threads := set_nth tid p ths ++ [W_start];
          sr_seen := seen |}.

Definition run_thread (clock : Z) (st : state) (lk : option nat)
  (ths : list pc) (tid : nat) (io : rebuild_io) : option step_result :=
  match nth_error ths tid with
  | None => None
  | Some p =>
      match p with
      (* auto_refresh_worker *)
      | W_start =>
          goto (set_running st true) lk ths tid W_loop
               [Ev (Log Info msg_auto_refresh_started)]
      | W_loop =>
          if auto_refresh_running st then
            (* [time.sleep] raises [ValueError] on a negative length:
               nothing catches it there and the thread ends, the flag
               staying as it is *)
            if (auto_refresh_interval (settings_of st) <? 0)%Z
            then goto st lk ths tid Finished []
            else goto st lk ths tid
                   (W_sleeping
                      (clock + auto_refresh_interval (settings_of st))) []
          else goto st lk ths tid Finished []
      | W_sleeping wake =>
          if (wake <=? clock)%Z then
            if auto_refresh_running st
            then goto st lk ths tid W_clearing
                   [Ev (Log Info msg_auto_refresh_tick)]
            else goto st lk ths tid W_loop []
          else None
      | W_clearing =>
          if lock_free lk
          then goto (clear_cache st) lk ths tid W_fetching []
          else None
      | W_fetching =>
          match rebuild (settings_of st) io with
          | (t, Ok r) => goto st lk ths tid (W_storing (snd r)) (map Ev t)
          | (t, Raise _) =>
              goto st lk ths tid W_loop
                   (map Ev (t ++ [Log Error msg_auto_refresh_failed]))
          end
      | W_storing rss =>
          if lock_free lk
          then goto (store_cache st rss clock) lk ths tid W_loop
                 [Ev (Log Info msg_auto_refresh_done)]
          else None
      (* get_cached_data *)
      | G_waiting =>
          if lock_free lk then
            match cache_hit st clock with
            | Some d =>
                goto st lk ths tid Finished
                     [Ev (Log Info msg_cache_hit); Served d]
            | None =>
                goto st (Some tid) ths tid (G_fetching clock)
                     [Ev (Log Info msg_cache_miss)]
            end
          else None
      | G_fetching current_time =>
          match rebuild (settings_of st) io with
          | (t, Ok r) =>
              goto (store_cache st (snd r) current_time) None ths tid Finished
                   (map Ev t ++ [Served (snd r)])
          | (t, Raise _) => goto st None ths tid Finished (map Ev t)
          end
      (* refresh *)
      | Refresh_clearing =>
          if lock_free lk
          then goto (clear_cache st) lk ths tid Refresh_fetching
                 [Ev (Log Info msg_refresh_cleared)]
          else None
      | Refresh_fetching =>
          match rebuild (settings_of st) io with
          | (t, Ok r) => goto st lk ths tid (Refresh_storing (snd r)) (map Ev t)
          | (t, Raise _) =>
              goto st lk ths tid Finished
                   (map Ev (t ++ [Log Error msg_refresh_failed]))
          end
      | Refresh_storing rss =>
          if lock_free lk
          then goto (store_cache st rss clock) lk ths tid Finished
                 [Ev (Log Info msg_refresh_done)]
          else None
      (* save_token, save_repos_route *)
      | Invalidate_clearing =>
          if lock_free lk
          then goto (clear_cache st) lk ths tid Finished []
          else None
      (* stop_auto_refresh *)
      | Stop_start =>
          goto (set_running st false) lk ths tid Finished
               [Ev (Log Info msg_auto_refresh_stopped)]
      (* restart_auto_refresh *)
      | Restart_start =>
          if auto_refresh_running st then
            if is_alive ths (refresh_thread st)
            then goto (set_running st false) lk ths tid
                   (Restart_sleeping (clock + 1))
                   [Ev (Log Info msg_stopping_existing)]
            else spawn_worker (set_running st false) lk ths tid Finished
                   [Ev (Log Info msg_restarted)]
          else spawn_worker st lk ths tid Finished
                 [Ev (Log Info msg_restarted)]
      | Restart_sleeping wake =>
          if (wake <=? clock)%Z
          then spawn_worker st lk ths tid Finished
                 [Ev (Log Info msg_restarted)]
          else None
      (* save_settings_route *)
      | Settings_start duration interval startup saved =>
          if negb ((30 <=? duration) && (duration <=? 3600))%Z
          then goto st lk ths tid Finished []
          else if negb ((60 <=? interval) && (interval <=? 86400))%Z
          then goto st lk ths tid Finished []
          else
            let old := auto_refresh_interval (settings_of st) in
            let st' := set_settings st
                         {| cache_duration := duration;
                            auto_refresh_interval := interval;
                            startup_refresh := startup |} in
            if saved
            then goto st' lk ths tid
                   (Settings_clearing (negb (old =? interval)%Z)) []
            else goto st' lk ths tid Finished []
      | Settings_clearing restart =>
          if lock_free lk
          then goto (clear_cache st) lk ths tid (Settings_fetching restart)
                 [Ev (Log Info msg_settings_refresh)]
          else None
      | Settings_fetching restart =>
          match rebuild (settings_of st) io with
          | (t, Ok r) =>
              goto st lk ths tid
                   (Settings_storing (snd r) (length (fst r)) restart)
                   (map Ev t)
          | (t, Raise _) =>
              goto st lk ths tid (if restart then Restart_start else Finished)
                   (map Ev (t ++ [Log Error msg_settings_refresh_failed]))
          end
      | Settings_storing rss n restart =>
          if lock_free lk
          then goto (store_cache st rss clock) lk ths tid
                 (if restart then Restart_start else Finished)
                 [Ev (Log Info (msg_settings_refresh_done n))]
          else None
      (* startup_cache_warmup *)
      | Warmup_start env =>
          if negb (env && startup_refresh (settings_of st))
          then goto st lk ths tid Finished
                 [Ev (Log Info msg_warmup_skipped)]
          else
            match rebuild (settings_of st) io with
            | (t, Ok r) =>
                goto st lk ths tid (Warmup_storing (snd r) (length (fst r)))
                     (map Ev (Log Info msg_warmup_start :: t))
            | (t, Raise _) =>
                goto st lk ths tid Finished
                     (map Ev (Log Info msg_warmup_start :: t
                                ++ [Log Error msg_warmup_failed]))
            end
      | Warmup_storing rss n =>
          if lock_free lk
          then goto (store_cache st rss clock) lk ths tid Finished
                 [Ev (Log Info (msg_warmup_done n))]
          else None
      (* main *)
      | Main_start => spawn_worker st lk ths tid Finished []
      | Finished => None
      end
  end.

(** One transition of the system; [None] when the action is not enabled. *)
Definition step (a : action) (w : world) : option world :=
  match a with
  | Tick dt =>
      if (0 <=? dt)%Z
      then Some {| now := now w + dt; shared := shared w; lock := lock w;
                   threads := threads w; history := history w |}
      else None
  | Arrive p =>
      if is_entry p
      then Some {| now := now w; shared := shared w; lock := lock w;
                   threads := threads w ++ [p]; history := history w |}
      else None
  | Step tid io =>
      match run_thread (now w) (shared w) (lock w) (threads w) tid io with
      | Some r =>
          Some {| now := now w; shared := sr_shared r; lock := sr_lock r;
                  threads := sr_threads r;
                  history := history w ++ map (pair tid) (sr_seen r) |}
      | None => None
      end
  end.

Fixpoint run (acts : list action) (w : world) : option world :=
  match acts with
  | [] => Some w
  | a :: acts' =>
      match step a w with
      | Some w' => run acts' w'
      | None => None
      end
  end.

(** The state the program starts in, at clock reading [t0]. *)
Definition initial_state (s : settings) : state :=
  {| settings_of := s;
     cache_of := {| data := None; timestamp := 0 |};
     auto_refresh_running := false;
     refresh_thread := None |}.

Definition initial_world (s : settings) (t0 : Z) : world :=
  {| now := t0; shared := initial_state s; lock := None;
     threads := []; history := [] |}.

(** The invocations of [fetch_all_releases] by thread [tid]. *)
Definition fetches_by (tid : nat) (h : list (nat * observation)) : nat :=
  length (filter (fun o =>
                    match o with
                    | (t, Ev FetchAll) => Nat.eqb t tid
                    | _ => false
                    end) h).

Definition fetches (h : list (nat * observation)) : nat :=
  length (filter (fun o =>
                    match o with
                    | (_, Ev FetchAll) => true
                    | _ => false
                    end) h).

(** The documents served to thread [tid]. *)
Definition served_to (tid : nat) (h : list (nat * observation)) : list rss_xml :=
  flat_map (fun o =>
              match o with
              | (t, Served d) => if Nat.eqb t tid then [d] else []
              | _ => []
              end) h.

(** What happened after [restart_auto_refresh] reported the restart. *)
Fixpoint since_restart (h : list (nat * observation))
  : list (nat * observation) :=
  match h with
  | [] => []
  | (_, Ev (Log _ msg_restarted)) :: h' => h'
  | _ :: h' => since_restart h'
  end.

(** Clock readings kept in control points. *)
Definition pc_clock_positive (p : pc) : Prop :=
  match p with
  | G_fetching t => (0 < t)%Z
  | _ => True
  end.

(** The invariant of the system: the clock reads a time after the epoch,
    so does every reading a thread still holds, and the cache entry
    satisfies its invariant. *)
Definition world_invariant (w : world) : Prop :=
  (0 < now w)%Z /\
  Forall pc_clock_positive (threads w) /\
  cache_invariant (cache_of (shared w)).

(** ** Vocabulary of the statements *)

(** The first entry of the feed when the fetch goes through: the HEAD
    request answers 200 and the parsed feed has at least one entry. *)
Definition has_release (w : response) : option feed_entry :=
  match head w with
  | HeadStatus c =>
      if (c =? 200)%Z then
        match parsed w with
        | Parsed f =>
            match entries f with
            | Some (entry :: _) => Some entry
            | _ => None
            end
        | ParseRaises _ => None
        end
      else None
  | HeadRaises _ => None
  end.

(** The list [fetch_repo_releases] returns. *)
Definition released (repo : pystr) (w : response) : list entry_data :=
  match outcome (fetch_repo_releases repo w) with
  | Ok l => l
  | Raise _ => []
  end.

(** What the task submitted for the [i]-th repository contributes. *)
Definition contribution (repos : list pystr) (net : nat -> response) (i : nat)
  : list entry_data :=
  match nth_error repos i with
  | Some r => released r (net i)
  | None => []
  end.

(** [a] is not older than [b] under the order of the sort key. *)
Definition not_older (a b : entry_data) : Prop :=
  str_ltb (updated a) (updated b) = false.

Definition sorted_desc (l : list entry_data) : Prop :=
  StronglySorted not_older l.

Definition pystr_eq_dec : forall a b : pystr, {a = b} + {a <> b} :=
  list_eq_dec N.eq_dec.

(** The number of items of [l] that come from repository [r]. *)
Definition items_of (r : pystr) (l : list entry_data) : nat :=
  count_occ pystr_eq_dec (map repo l) r.

(** The ways a fetch fails, under the names of the design's taxonomy and
    read off the world's answer along the error paths of
    [fetch_repo_releases]: a 404 is [NotFound]; a timed-out request is
    [TimedOut]; a connection or request error, or another status than 200,
    is [Unreachable]; an error of no known class, or a document flagged as
    not well-formed ([bozo]) from which no entry is recovered, is
    [Malformed].  A well-formed feed without entries is no error, and
    neither is a flagged document whose entries were recovered: the
    program warns and uses them. *)
Inductive fetch_error : Type := NotFound | Unreachable | Malformed | TimedOut.

Definition exn_kind (e : exn) : fetch_error :=
  match e with
  | Timeout => TimedOut
  | ConnectionError => Unreachable
  | RequestException => Unreachable
  | OtherException => Malformed
  end.

Definition error_kind (w : response) : option fetch_error :=
  match head w with
  | HeadRaises e => Some (exn_kind e)
  | HeadStatus c =>
      if (c =? 404)%Z then Some NotFound
      else if negb (c =? 200)%Z then Some Unreachable
      else match parsed w with
           | ParseRaises e => Some (exn_kind e)
           | Parsed f =>
               match entries f with
               | Some (_ :: _) => None
               | _ => if bozo f then Some Malformed else None
               end
           end
  end.

(** The task submitted for the [i]-th repository does not fail. *)
Definition no_error (net : nat -> response) (i : nat) : bool :=
  match error_kind (net i) with None => true | Some _ => false end.

(** The log line that reports an error kind. *)
Definition reports (k : fetch_error) (r : pystr) (ev : event) : bool :=
  match k, ev with
  | NotFound, Log Warning (msg_no_release_page r') => true
  | Unreachable, Log Warning (msg_status_code r' _) => true
  | Unreachable, Log Error (msg_connection r') => true
  | Unreachable, Log Error (msg_request_error r') => true
  | TimedOut, Log Error (msg_timeout r') => true
  | Malformed, Log Warning (msg_bozo r') => true
  | Malformed, Log Error (msg_unknown_error r') => true
  | _, _ => false
  end.

(** ** Sample inputs *)

(** [html.unescape] on text without character references. *)
Definition unescape_plain : pystr -> pystr := fun s => s.

(** A warm cache: a document stored at clock reading 1000. *)
Definition example_document : rss_xml :=
  {| rss_count := 0; rss_lastBuildDate := 1000; rss_pubDate := 1000;
     rss_ttl := 0; rss_items := [] |}.

Definition example_warm_state : state :=
  {| settings_of := {| cache_duration := 30; auto_refresh_interval := 60;
                       startup_refresh := true |};
     cache_of := {| data := Some example_document; timestamp := 1000 |};
     auto_refresh_running := true;
     refresh_thread := Some 0%nat |}.

Definition example_settings : settings :=
  {| cache_duration := 30; auto_refresh_interval := 60;
     startup_refresh := true |}.

Definition example_entry (stamp : string) : feed_entry :=
  {| e_updated := Some (py stamp);
     e_published := None;
     e_author_detail := Some (Some (py "octocat"));
     e_author := Some (py "octocat");
     e_summary := Some (py "Bug fixes and more");
     e_description := None;
     e_title := Some (py "v1.0.0");
     e_link := None;
     e_id := Some (py "tag:github.com,2008:Repository/1/v1.0.0") |}.

Definition example_now : pystr := py "2024-03-01T00:00:00+00:00".

(** A repository with one release. *)
Definition example_ok (stamp : string) : response :=
  {| github_token := [];
     head := HeadStatus 200;
     parsed := Parsed {| bozo := false;
                         entries := Some [example_entry stamp] |};
     now_iso := example_now |}.

(** The same answer, the document being flagged as not well-formed. *)
Definition example_bozo (stamp : string) : response :=
  {| github_token := [];
     head := HeadStatus 200;
     parsed := Parsed {| bozo := true;
                         entries := Some [example_entry stamp] |};
     now_iso := example_now |}.

Definition example_timeout : response :=
  {| github_token := [];
     head := HeadRaises Timeout;
     parsed := ParseRaises OtherException;
     now_iso := example_now |}.

Definition example_repos : list pystr := [py "a/x"; py "a/y"].

(** [a/x] has a release, [a/y] times out and completes first. *)
Definition example_io : rebuild_io :=
  {| io_repos := example_repos;
     io_net := fun i => match i with
                        | O => example_ok "2024-02-01T10:00:00Z"
                        | _ => example_timeout
                        end;
     io_order := [1; 0]%nat;
     io_lastBuildDate := 1700000000;
     io_pubDate := 1700000000 |}.

(** No repository is configured. *)
Definition example_io_empty : rebuild_io :=
  {| io_repos := [];
     io_net := fun _ => example_timeout;
     io_order := [];
     io_lastBuildDate := 1700000000;
     io_pubDate := 1700000000 |}.

(** Two readers ask for the feed right after an invalidation; the rebuild
    of the first lasts [d] seconds. *)
Definition example_two_readers (d : Z) : list action :=
  [ Arrive G_waiting; Arrive G_waiting;
    Step 0 example_io;          (* reader 0 takes the lock: miss *)
    Tick d;                     (* its rebuild is in flight *)
    Step 0 example_io;          (* reader 0 stores and releases *)
    Step 1 example_io ].        (* reader 1 takes the lock *)

(** The same, the second reader running on after it got the lock. *)
Definition example_two_readers_on (d : Z) : list action :=
  example_two_readers d ++ [Step 1 example_io].

(** The worker is started, then restarted ten seconds later; the first
    worker wakes at the end of its 60-second sleep. *)
Definition example_restart : list action :=
  [ Arrive Main_start; Step 0 example_io;   (* thread 1 is the worker *)
    Step 1 example_io;                      (* running := True *)
    Step 1 example_io;                      (* sleeps until t0 + 60 *)
    Tick 10;
    Arrive Restart_start;                   (* thread 2 *)
    Step 2 example_io;                      (* running := False, sleep(1) *)
    Tick 1;
    Step 2 example_io;                      (* thread 3 is the new worker *)
    Step 3 example_io;                      (* running := True *)
    Step 3 example_io;                      (* sleeps until t0 + 71 *)
    Tick 49;
    Step 1 example_io;                      (* the old worker wakes *)
    Step 1 example_io;                      (* clears the cache *)
    Step 1 example_io;                      (* fetches *)
    Step 1 example_io ].                    (* stores *)

(** ** Text files: repositories and token *)

(** [c.isspace()]: the code points Python counts as whitespace. *)
Definition is_space (c : N) : bool :=
  ((9 <=? c) && (c <=? 13) || (28 <=? c) && (c <=? 32)
   || (c =? 133) || (c =? 160) || (c =? 5760)
   || (8192 <=? c) && (c <=? 8202)
   || (c =? 8232) || (c =? 8233) || (c =? 8239) || (c =? 8287)
   || (c =? 12288))%N.

(** [s.lstrip()], [s.rstrip()], [s.strip()] *)
Fixpoint lstrip (s : pystr) : pystr :=
  match s with
  | [] => []
  | c :: s' => if is_space c then lstrip s' else s
  end.

Fixpoint rstrip (s : pystr) : pystr :=
  match s with
  | [] => []
  | c :: s' =>
      match rstrip s' with
      | [] => if is_space c then [] else [c]
      | r => c :: r
      end
  end.

Definition strip (s : pystr) : pystr := rstrip (lstrip s).

Definition newline : N := 10.
Definition hash : N := 35.

(** [s.startswith(c)] for a one-character prefix. *)
Definition startswith (c : N) (s : pystr) : bool :=
  match s with
  | x :: _ => N.eqb x c
  | [] => false
  end.

(** The lines a text file yields when iterated: each keeps its newline,
    the last one may lack it.  The text is the decoded content, newlines
    already translated. *)
Fixpoint readlines (s : pystr) : list pystr :=
  match s with
  | [] => []
  | c :: s' =>
      if N.eqb c newline then [c] :: readlines s'
      else match readlines s' with
           | [] => [[c]]
           | l :: ls => (c :: l) :: ls
           end
  end.

(** The character class [[a-zA-Z0-9._-]]. *)
Definition repo_char (c : N) : bool :=
  ((97 <=? c) && (c <=? 122) || (65 <=? c) && (c <=? 90)
   || (48 <=? c) && (c <=? 57)
   || (c =? 46) || (c =? 95) || (c =? 45))%N.

(** The longest prefix of characters of a class, and the rest. *)
Fixpoint span_chars (p : N -> bool) (s : pystr) : pystr * pystr :=
  match s with
  | [] => ([], [])
  | c :: s' =>
      if p c then let (a, r) := span_chars p s' in (c :: a, r)
      else ([], s)
  end.

(** [bool(re.match(r'^[a-zA-Z0-9._-]+/[a-zA-Z0-9._-]+$', repo))].  The
    class excludes the slash, so each [+] takes the longest run; [$]
    matches at the end of the string and also before a newline that ends
    it. *)
Definition is_valid_repo_format (repo : pystr) : bool :=
  match span_chars repo_char repo with
  | (_ :: _, c :: rest) =>
      if N.eqb c slash then
        match span_chars repo_char rest with
        | (_ :: _, []) => true
        | (_ :: _, [c']) => N.eqb c' newline
        | _ => false
        end
      else false
  | _ => false
  end.

(** A file on disk as the program meets it: absent; present but failing
    to open or, after it has delivered the lines [delivered] to a loop
    over it, to read on (a decoding error part-way, say: [f.read()] then
    raises without a result); or readable, with the text [f.read()]
    returns. *)
Inductive file : Type :=
| Missing
| Unreadable (delivered : list pystr)
| Content (text : pystr).

(** The loop of [load_repos] from line number [line_num] on: the accepted
    repositories and the lines warned about, with their numbers. *)
Fixpoint load_repos_lines (line_num : nat) (lines : list pystr)
  : list pystr * list (nat * pystr) :=
  match lines with
  | [] => ([], [])
  | line :: rest =>
      let line := strip line in
      let (repos, warned) := load_repos_lines (S line_num) rest in
      if negb (truthy line) || startswith hash line then (repos, warned)
      else if is_valid_repo_format line then (line :: repos, warned)
      else (repos, (line_num, line) :: warned)
  end.

(** The lines the loop of [load_repos] gets to see. *)
Definition lines_of (f : file) : list pystr :=
  match f with
  | Missing => []
  | Unreadable delivered => delivered
  | Content text => readlines text
  end.

(** [load_repos]: the list returned and the warnings about invalid lines.
    A missing file gives the empty list at once.  An error while reading
    gives the empty list too, whatever had been accepted, but the lines
    read before it have had their warnings. *)
Definition load_repos (f : file) : list pystr * list (nat * pystr) :=
  match f with
  | Missing => ([], [])
  | Unreadable delivered => ([], snd (load_repos_lines 1 delivered))
  | Content text => load_repos_lines 1 (readlines text)
  end.

(** [load_github_token]: the stripped content of the token file when it is
    not blank, otherwise [os.getenv("GITHUB_TOKEN", "")], here [env]. *)
Definition load_github_token (f : file) (env : pystr) : pystr :=
  match f with
  | Content text =>
      let token := strip text in
      if truthy token then token else env
  | Missing | Unreadable _ => env
  end.

Definition carriage_return : N := 13.

(** What a file opened in text mode gives back of a text written to it:
    the line ends [\r\n] and [\r] are read as [\n].  On writing, [\n]
    becomes the line separator of the system, taken to be [\n]. *)
Fixpoint universal_newlines (s : pystr) : pystr :=
  match s with
  | [] => []
  | c :: s' =>
      if N.eqb c carriage_return then
        match s' with
        | c' :: _ =>
            if N.eqb c' newline then universal_newlines s'
            else newline :: universal_newlines s'
        | [] => [newline]
        end
      else c :: universal_newlines s'
  end.

(** What happens when a file is opened for writing and written: it holds
    the new text, or the attempt raises and leaves the file in some
    state. *)
Inductive write_result : Type :=
| Written
| WriteFails (remains : file).

Definition write_file (text : pystr) (wr : write_result) : file * bool :=
  match wr with
  | Written => (Content (universal_newlines text), true)
  | WriteFails remains => (remains, false)
  end.

(** [save_github_token(token)] and [save_repos(repos_text)]: the file
    afterwards and the boolean returned. *)
Definition save_github_token (token : pystr) (wr : write_result)
  : file * bool :=
  write_file (strip token) wr.

Definition save_repos (repos_text : pystr) (wr : write_result)
  : file * bool :=
  write_file repos_text wr.

(** The routes [/save_token] and [/save_repos] with the file they write:
    the form value is stripped, saved, and the cache is invalidated when
    the save succeeded. *)
Definition save_token_request (form : pystr) (wr : write_result) (st : state)
  : file * (state * Z) :=
  let (f, saved) := save_github_token (strip form) wr in
  (f, save_token saved st).

Definition save_repos_request (form : pystr) (wr : write_result) (st : state)
  : file * (state * Z) :=
  let (f, saved) := save_repos (strip form) wr in
  (f, save_repos_route saved st).

(** ** The feed route and the status route *)

(** [l[:n]] for an integer [n] of either sign. *)
Definition slice_stop {A} (n : Z) (l : list A) : list A :=
  if (0 <=? n)%Z then firstn (Z.to_nat n) l
  else firstn (length l - Z.to_nat (- n)) l.

(** The value of [int(request.args.get("limit", MAX_ENTRIES))]: the
    parameter is absent, does not parse (a [ValueError]), or is a
    number. *)
Inductive limit_arg : Type :=
| NoLimit
| BadLimit
| Limit (n : Z).

(** The response of [/rss]: the status and, with status 200, the
    document. *)
Definition rss_response : Type := (Z * option rss_xml)%type.

(** [aggregate_rss].  [io] serves the rebuild of [get_cached_data], [io']
    the second fetch made for a small limit.  The handler of the route
    turns every exception into a 500; the line it logs is not recorded. *)
Definition aggregate_rss (st : state) (arg : limit_arg) (current_time : Z)
  (io io' : rebuild_io) : list event * (state * rss_response) :=
  match get_cached_data st current_time io with
  | (tr, Raise _) => (tr, (st, (500%Z, None)))
  | (tr, Ok (rss, st1)) =>
      match arg with
      | BadLimit => (tr, (st1, (500%Z, None)))
      | NoLimit => (tr, (st1, (200%Z, Some rss)))
      | Limit limit =>
          if (negb (limit =? Z.of_nat MAX_ENTRIES)
              && (limit <? Z.of_nat MAX_ENTRIES))%Z
          then
            match fetch_all_releases (io_repos io') (io_net io')
                    (io_order io') with
            | (tr', Ok entries) =>
                let limited := slice_stop (Z.min limit 500) entries in
                (tr ++ tr',
                 (st1, (200%Z,
                        Some (create_rss_feed (settings_of st1) io' limited))))
            | (tr', Raise _) => (tr ++ tr', (st1, (500%Z, None)))
            end
          else (tr, (st1, (200%Z, Some rss)))
      end
  end.

(** The JSON answer of [/status], without its constants.  [round] leaves
    an integer age as it is. *)
Record status_info : Type := {
  repos_count : nat;
  has_github_token : bool;
  cache_age_seconds : Z;
  cache_valid : bool;
  last_update : option Z;
  status_cache_duration : Z;
  status_auto_refresh_interval : Z;
  status_auto_refresh_running : bool;
  startup_refresh_enabled : bool
}.

Definition status (env_startup_refresh : bool) (st : state) (clock : Z)
  (repos_file token_file : file) (env_token : pystr) : status_info :=
  let ts := timestamp (cache_of st) in
  let cache_age := if (0 <? ts)%Z then (clock - ts)%Z else (-1)%Z in
  {| repos_count := length (fst (load_repos repos_file));
     has_github_token := truthy (load_github_token token_file env_token);
     cache_age_seconds := cache_age;
     cache_valid :=
       if (0 <=? cache_age)%Z
       then (cache_age <? cache_duration (settings_of st))%Z
       else false;
     last_update := if (0 <? ts)%Z then Some ts else None;
     status_cache_duration := cache_duration (settings_of st);
     status_auto_refresh_interval := auto_refresh_interval (settings_of st);
     status_auto_refresh_running := auto_refresh_running st;
     startup_refresh_enabled :=
       env_startup_refresh && startup_refresh (settings_of st) |}.

(** ** Vocabulary of further statements *)


Definition is_rebuilding_reader (p : pc) : bool :=
  match p with G_fetching _ => true | _ => false end.

(** The lock is held by a thread that exists, and a thread holds it
    exactly when it is a reader in its rebuild: there is at most one. *)
Definition lock_ok (ths : list pc) (lk : option nat) : Prop :=
  (forall tid, lk = Some tid -> (tid < length ths)%nat) /\
  forall tid p,
    nth_error ths tid = Some p ->
    is_rebuilding_reader p = true <-> lk = Some tid.

Definition lock_invariant (w : world) : Prop :=
  lock_ok (threads w) (lock w).

(** A document as [create_rss_feed] leaves it: at most [MAX_ENTRIES]
    items, in descending order of [updated]. *)
Definition document_ok (d : rss_xml) : Prop :=
  (length (rss_items d) <= MAX_ENTRIES)%nat /\ sorted_desc (rss_items d).

Definition pc_document_ok (p : pc) : Prop :=
  match p with
  | W_storing d | Refresh_storing d
  | Settings_storing d _ _ | Warmup_storing d _ => document_ok d
  | _ => True
  end.

(** Every document in the system is as [create_rss_feed] leaves it: the
    cached one, those a thread is about to store, those served. *)
Definition documents_ok (w : world) : Prop :=
  (forall d, data (cache_of (shared w)) = Some d -> document_ok d) /\
  Forall pc_document_ok (threads w) /\
  (forall tid d, In d (served_to tid (history w)) -> document_ok d).

(** A worker that is not in the middle of a tick, or a thread that has
    ended. *)
Definition worker_idle (p : pc) : bool :=
  match p with
  | W_loop | W_sleeping _ | Finished => true
  | _ => false
  end.

(** The worker is stopped and no other thread is under way. *)
Definition stopped (w : world) : Prop :=
  auto_refresh_running (shared w) = false /\
  forallb worker_idle (threads w) = true.

Definition is_arrival (a : action) : bool :=
  match a with Arrive _ => true | _ => false end.

(** The entries of a list that carry the sort key [k]. *)
Definition with_key (k : pystr) (l : list entry_data) : list entry_data :=
  filter (fun e => str_eqb (updated e) k) l.

(** [s] begins with [p]. *)
Fixpoint has_prefix (p s : pystr) : bool :=
  match p, s with
  | [], _ => true
  | x :: p', y :: s' => N.eqb x y && has_prefix p' s'
  | _ :: _, [] => false
  end.

(** ** Sample inputs of the routes and files *)

(** A repositories file: a repository written with blanks around it, a
    comment and a line that is no repository. *)
Definition example_repos_file : file :=
  Content (py "  octo/cat " ++ newline :: py "# note" ++ newline ::
           py "not a repo").


(** The worker sleeps until 1060 and has been told to stop. *)
Definition example_stopped : world :=
  {| now := 1010;
     shared := {| settings_of := example_settings;
                  cache_of := {| data := Some example_document;
                                 timestamp := 1000 |};
                  auto_refresh_running := false;
                  refresh_thread := Some 0%nat |};
     lock := None;
     threads := [W_sleeping 1060];
     history := [] |}.

(** A forced refresh and a reader start together on a warm cache. *)
Definition example_refresh_and_reader : world :=
  {| now := 1010;
     shared := example_warm_state;
     lock := None;
     threads := [Refresh_clearing; G_waiting];
     history := [] |}.

(** The settings form is valid, [save_settings] fails. *)
Definition example_unsaved_settings : world :=
  {| now := 1010;
     shared := example_warm_state;
     lock := None;
     threads := [Settings_start 3600 600 false false];
     history := [] |}.

(** ** Listed sources and the time a stamp denotes *)









(** ** Sample inputs of the merge and of a slow rebuild *)




(** Both repositories time out. *)
Definition example_io_all_failed : rebuild_io :=
  {| io_repos := example_repos;
     io_net := fun _ => example_timeout;
     io_order := [0; 1]%nat;
     io_lastBuildDate := 1700000000;
     io_pubDate := 1700000000 |}.

(** A reader finds the cache empty at clock 1000; every repository fails
    and the rebuild lasts [d] seconds.  When it is over a second reader
    asks for the feed. *)
Definition example_slow_empty_rebuild (d : Z) : list action :=
  [ Arrive G_waiting;
    Step 0 example_io_all_failed;   (* reader 0: miss, reads the clock *)
    Tick d;                         (* the rebuild is in flight *)
    Step 0 example_io_all_failed;   (* stores the empty document *)
    Arrive G_waiting;
    Step 1 example_io_all_failed ]. (* reader 1 takes the lock *)

(** The same, the second reader running on after it got the lock. *)
Definition example_slow_empty_rebuild_on (d : Z) : list action :=
  example_slow_empty_rebuild d ++ [Step 1 example_io_all_failed].

(** * Properties *)

(** ** The order on strings *)

Lemma str_compare_refl (a : pystr) : str_compare a a = Eq.
Proof.
  induction a as [|x a IH]; simpl; [reflexivity|].
  now rewrite N.compare_refl.
Qed.

Lemma str_compare_eq (a b : pystr) : str_compare a b = Eq -> a = b.
Proof.
  revert b; induction a as [|x a IH]; intros [|y b]; simpl; try discriminate.
  - reflexivity.
  - destruct (N.compare_spec x y) as [->|_|_]; try discriminate.
    intros H; f_equal; auto.
Qed.

Lemma str_compare_antisym (a b : pystr) :
  str_compare b a = CompOpp (str_compare a b).
Proof.
  revert b; induction a as [|x a IH]; intros [|y b]; simpl; try reflexivity.
  rewrite (N.compare_antisym x y).
  destruct (N.compare x y); simpl; auto.
Qed.

Lemma str_compare_lt_trans (a b c : pystr) :
  str_compare a b = Lt -> str_compare b c = Lt -> str_compare a c = Lt.
Proof.
  revert b c; induction a as [|x a IH]; intros [|y b] [|z c]; simpl;
    try discriminate; try reflexivity.
  destruct (N.compare_spec x y) as [->|Hxy|Hxy]; try discriminate.
  - destruct (N.compare y z); try discriminate.
    + intros; eapply IH; eauto.
    + reflexivity.
  - intros _.
    destruct (N.compare_spec y z) as [->|Hyz|Hyz]; try discriminate.
    + intros _. now apply N.compare_lt_iff in Hxy; rewrite Hxy.
    + intros _. assert (H : (x < z)%N) by lia.
      now apply N.compare_lt_iff in H; rewrite H.
Qed.

Lemma str_ltb_irrefl (a : pystr) : str_ltb a a = false.
Proof. unfold str_ltb; now rewrite str_compare_refl. Qed.

(** Of two strings one is not smaller than the other. *)
Lemma str_ltb_flip (a b : pystr) : str_ltb a b = true -> str_ltb b a = false.
Proof.
  unfold str_ltb. rewrite (str_compare_antisym a b).
  destruct (str_compare a b); simpl; congruence.
Qed.

Lemma str_ge_trans (a b c : pystr) :
  str_ltb a b = false -> str_ltb b c = false -> str_ltb a c = false.
Proof.
  unfold str_ltb. intros Hab Hbc.
  destruct (str_compare a c) eqn:Hac; try reflexivity.
  destruct (str_compare a b) eqn:Eab; try discriminate.
  - apply str_compare_eq in Eab; subst. now rewrite Hac in Hbc.
  - assert (Hba : str_compare b a = Lt)
      by (rewrite (str_compare_antisym a b), Eab; reflexivity).
    now rewrite (str_compare_lt_trans _ _ _ Hba Hac) in Hbc.
Qed.

Lemma not_older_trans (a b c : entry_data) :
  not_older a b -> not_older b c -> not_older a c.
Proof. unfold not_older; apply str_ge_trans. Qed.

(** ** The sort *)

Lemma insert_desc_perm (x : entry_data) (l : list entry_data) :
  Permutation (insert_desc x l) (x :: l).
Proof.
  induction l as [|y l IH]; simpl; [reflexivity|].
  destruct (str_ltb (updated x) (updated y)); [|reflexivity].
  rewrite IH. apply perm_swap.
Qed.

Lemma sort_updated_desc_perm (l : list entry_data) :
  Permutation (sort_updated_desc l) l.
Proof.
  induction l as [|x l IH]; simpl; [reflexivity|].
  rewrite insert_desc_perm. now constructor.
Qed.

Lemma insert_desc_sorted (x : entry_data) (l : list entry_data) :
  sorted_desc l -> sorted_desc (insert_desc x l).
Proof.
  unfold sorted_desc.
  induction l as [|y l IH]; simpl; intros Hs.
  - repeat constructor.
  - inversion Hs as [|? ? Hl Hy]; subst.
    destruct (str_ltb (updated x) (updated y)) eqn:E.
    + constructor; [now apply IH|].
      apply (Permutation_Forall (Permutation_sym (insert_desc_perm x l))).
      constructor; [|assumption].
      now apply str_ltb_flip.
    + constructor; [assumption|].
      constructor; [exact E|].
      eapply Forall_impl; [|exact Hy].
      intros z Hz. now apply not_older_trans with y.
Qed.

Lemma sort_updated_desc_sorted (l : list entry_data) :
  sorted_desc (sort_updated_desc l).
Proof.
  induction l as [|x l IH]; simpl.
  - constructor.
  - now apply insert_desc_sorted.
Qed.

(** Equal keys keep their order of arrival: sorting a list that is already
    in descending order changes nothing. *)
Lemma sort_updated_desc_stable (l : list entry_data) :
  sorted_desc l -> sort_updated_desc l = l.
Proof.
  unfold sorted_desc.
  induction l as [|x l IH]; simpl; intros Hs; [reflexivity|].
  inversion Hs as [|? ? Hl Hx]; subst.
  rewrite (IH Hl). destruct l as [|y l]; simpl; [reflexivity|].
  inversion Hx as [|? ? Hxy _]; subst.
  unfold not_older in Hxy. now rewrite Hxy.
Qed.

Lemma flat_map_perm {A B} (f : A -> list B) (l l' : list A) :
  Permutation l l' -> Permutation (flat_map f l) (flat_map f l').
Proof.
  induction 1; simpl.
  - constructor.
  - now apply Permutation_app_head.
  - rewrite !app_assoc. apply Permutation_app_tail, Permutation_app_comm.
  - etransitivity; eassumption.
Qed.

(** ** The per-repository fetch *)

Ltac case_response w :=
  let tok := fresh "tok" in
  let c := fresh "c" in
  let e := fresh "e" in
  let e' := fresh "e'" in
  let bz := fresh "bz" in
  let es := fresh "es" in
  destruct w as [tok [c|e] [[bz es]|e'] ?]; cbn;
  try (destruct (Z.eqb_spec c 404) as [->|?]; cbn);
  try (destruct (Z.eqb_spec c 200) as [->|?]; cbn);
  try (destruct bz; cbn);
  try (destruct es as [[|? ?]|]; cbn);
  try (destruct e; cbn);
  try (destruct e'; cbn).

(** [fetch_repo_releases] never raises, and returns the first entry of the
    feed when the fetch goes through and nothing otherwise. *)
Lemma fetch_repo_releases_outcome (r : pystr) (w : response) :
  outcome (fetch_repo_releases r w) =
  Ok match has_release w with
     | Some entry => [make_entry_data r entry w]
     | None => []
     end.
Proof.
  unfold outcome, fetch_repo_releases, fetch_repo_releases_try,
    fetch_repo_releases_except, try_except, has_release, do_head, do_parse.
  case_response w; reflexivity.
Qed.

Lemma released_eq (r : pystr) (w : response) :
  released r w =
  match has_release w with
  | Some entry => [make_entry_data r entry w]
  | None => []
  end.
Proof. unfold released. now rewrite fetch_repo_releases_outcome. Qed.

Lemma fetch_repo_releases_run (r : pystr) (w : response) :
  fetch_repo_releases r w = (trace (fetch_repo_releases r w), Ok (released r w)).
Proof.
  rewrite released_eq.
  rewrite <- fetch_repo_releases_outcome.
  unfold trace, outcome. now destruct (fetch_repo_releases r w).
Qed.

(** The requests of one call: the HEAD request, then at most the parse. *)
Lemma fetch_repo_releases_requests (r : pystr) (w : response) :
  let url := releases_atom_url r in
  let h := requests_head url (request_headers (github_token w))
             (Some REQUEST_TIMEOUT) in
  requests_of (trace (fetch_repo_releases r w)) = [h] \/
  requests_of (trace (fetch_repo_releases r w)) = [h; feedparser_parse url].
Proof.
  unfold trace, fetch_repo_releases, fetch_repo_releases_try,
    fetch_repo_releases_except, try_except, do_head, do_parse.
  case_response w; auto.
Qed.

Lemma at_most_one_check_and_one_fetch (r : pystr) (w : response) :
  let rs := requests_of (trace (fetch_repo_releases r w)) in
  (length (filter is_head rs) <= 1)%nat /\
  (length (filter is_parse rs) <= 1)%nat.
Proof.
  cbv zeta.
  destruct (fetch_repo_releases_requests r w) as [-> | ->]; simpl; lia.
Qed.

(** The existence check carries the configured timeout; the content fetch
    carries none. *)
Lemma request_timeouts (r : pystr) (w : response) (q : request) :
  In q (requests_of (trace (fetch_repo_releases r w))) ->
  (is_head q = true -> request_timeout q = Some REQUEST_TIMEOUT) /\
  (is_parse q = true -> request_timeout q = None).
Proof.
  destruct (fetch_repo_releases_requests r w) as [-> | ->]; simpl;
    intros H; repeat (destruct H as [<- | H]); try contradiction;
    simpl; split; intros; congruence.
Qed.

(** The content fetch is issued exactly when the HEAD request answers
    200. *)
Lemma content_fetch_iff_head_200 (r : pystr) (w : response) :
  In (feedparser_parse (releases_atom_url r))
     (requests_of (trace (fetch_repo_releases r w)))
  <-> head w = HeadStatus 200.
Proof.
  unfold trace, fetch_repo_releases, fetch_repo_releases_try,
    fetch_repo_releases_except, try_except, do_head, do_parse.
  case_response w; split; intros H;
    try reflexivity; try discriminate; try congruence;
    try (simpl in H; intuition discriminate);
    try (simpl; auto).
Qed.

(** ** Counting invocations *)

Lemma count_fetch_all_app (t t' : list event) :
  count_fetch_all (t ++ t') = (count_fetch_all t + count_fetch_all t')%nat.
Proof. unfold count_fetch_all. now rewrite filter_app, length_app. Qed.

Lemma fetch_repo_releases_no_fetch_all (r : pystr) (w : response) :
  count_fetch_all (trace (fetch_repo_releases r w)) = 0%nat.
Proof.
  unfold trace, fetch_repo_releases, fetch_repo_releases_try,
    fetch_repo_releases_except, try_except, do_head, do_parse.
  case_response w; reflexivity.
Qed.

(** ** The fan-out *)

Lemma contribution_length (repos : list pystr) (net : nat -> response) (i : nat) :
  (length (contribution repos net i) <= 1)%nat.
Proof.
  unfold contribution. destruct (nth_error repos i); simpl; [|lia].
  rewrite released_eq. destruct (has_release (net i)); simpl; lia.
Qed.

Lemma future_result_run (repos : list pystr) (net : nat -> response) (i : nat) :
  exists t, future_result repos net i = (t, Ok (contribution repos net i))
            /\ count_fetch_all t = 0%nat.
Proof.
  unfold future_result, contribution.
  destruct (nth_error repos i) as [r|].
  - exists (trace (fetch_repo_releases r (net i))). split.
    + apply fetch_repo_releases_run.
    + apply fetch_repo_releases_no_fetch_all.
  - exists []. split; reflexivity.
Qed.

Lemma collect_step_run (repos : list pystr) (net : nat -> response)
  (acc : list entry_data * nat) (i : nat) :
  exists t,
    collect_step repos net acc i =
      (t, Ok (fst acc ++ contribution repos net i,
              (snd acc + length (contribution repos net i))%nat))
    /\ count_fetch_all t = 0%nat.
Proof.
  destruct (future_result_run repos net i) as (t & Hrun & Ht).
  unfold collect_step. rewrite Hrun. destruct acc as [l n].
  destruct (contribution repos net i) as [|x es] eqn:E; cbn.
  - exists (t ++ []). rewrite !app_nil_r, Nat.add_0_r. auto.
  - exists (t ++ []). rewrite app_nil_r. split; [|assumption].
    pose proof (contribution_length repos net i) as Hlen.
    rewrite E in Hlen. destruct es; simpl in *; [|lia].
    now rewrite Nat.add_1_r.
Qed.

Lemma collect_run (repos : list pystr) (net : nat -> response)
  (order : list nat) (acc : list entry_data * nat) :
  exists t,
    collect repos net order acc =
      (t, Ok (fst acc ++ flat_map (contribution repos net) order,
              (snd acc + length (flat_map (contribution repos net) order))%nat))
    /\ count_fetch_all t = 0%nat.
Proof.
  revert acc; induction order as [|i order IH]; intros acc; simpl.
  - exists []. destruct acc; cbn. rewrite app_nil_r, Nat.add_0_r. auto.
  - destruct (collect_step_run repos net acc i) as (t1 & H1 & Hc1).
    rewrite H1. cbn.
    destruct (IH (fst acc ++ contribution repos net i,
                  (snd acc + length (contribution repos net i))%nat))
      as (t2 & H2 & Hc2).
    rewrite H2. cbn. exists (t1 ++ t2). split.
    + now rewrite <- app_assoc, length_app, Nat.add_assoc.
    + rewrite count_fetch_all_app. lia.
Qed.

(** [fetch_all_releases] never raises; it returns the contributions of the
    tasks, in completion order, sorted; it counts as one invocation. *)
Lemma fetch_all_releases_run (repos : list pystr) (net : nat -> response)
  (order : list nat) :
  exists t,
    fetch_all_releases repos net order =
      (t, Ok match repos with
             | [] => []
             | _ :: _ => sort_updated_desc (flat_map (contribution repos net) order)
             end)
    /\ count_fetch_all t = 1%nat.
Proof.
  unfold fetch_all_releases. destruct repos as [|r0 repos].
  - exists [FetchAll]. split; reflexivity.
  - destruct (collect_run (r0 :: repos) net order ([], 0%nat)) as (t & H & Hc).
    cbn -[collect contribution sort_updated_desc length].
    rewrite H. cbn -[contribution sort_updated_desc length].
    eexists. split; [reflexivity|].
    match goal with
    | |- count_fetch_all (?a :: ?b :: t ++ ?c) = _ =>
        change (count_fetch_all ([a; b] ++ t ++ c) = 1%nat)
    end.
    rewrite !count_fetch_all_app, Hc. reflexivity.
Qed.

Lemma fetch_all_releases_no_repos (net : nat -> response) (order : list nat) :
  outcome (fetch_all_releases [] net order) = Ok [].
Proof. reflexivity. Qed.

(** When no task contributes, the merged list is empty. *)
Lemma fetch_all_releases_all_failed (repos : list pystr)
  (net : nat -> response) (order : list nat) :
  (forall i, In i order -> has_release (net i) = None) ->
  outcome (fetch_all_releases repos net order) = Ok [].
Proof.
  intros Hfail.
  destruct (fetch_all_releases_run repos net order) as (t & -> & _).
  unfold outcome; simpl. destruct repos as [|r0 repos]; [reflexivity|].
  f_equal.
  assert (E : flat_map (contribution (r0 :: repos) net) order = []).
  { induction order as [|i order IH]; [reflexivity|].
    cbn [flat_map]. rewrite IH by (intros; apply Hfail; now right).
    unfold contribution.
    destruct (nth_error (r0 :: repos) i); [|reflexivity].
    rewrite released_eq, Hfail by now left. reflexivity. }
  now rewrite E.
Qed.

(** ** One item per repository *)

Lemma items_of_app (r : pystr) (l l' : list entry_data) :
  items_of r (l ++ l') = (items_of r l + items_of r l')%nat.
Proof. unfold items_of. now rewrite map_app, count_occ_app. Qed.

Lemma items_of_perm (r : pystr) (l l' : list entry_data) :
  Permutation l l' -> items_of r l = items_of r l'.
Proof.
  intros H. unfold items_of.
  apply Permutation_count_occ. now apply Permutation_map.
Qed.

Lemma released_repo (r : pystr) (w : response) :
  map repo (released r w) =
  match has_release w with Some _ => [r] | None => [] end.
Proof. rewrite released_eq. now destruct (has_release w). Qed.

Lemma items_of_released_same (r : pystr) (w : response) :
  items_of r (released r w) =
  match has_release w with Some _ => 1%nat | None => 0%nat end.
Proof.
  unfold items_of. rewrite released_repo.
  destruct (has_release w); simpl; [|reflexivity].
  now destruct (pystr_eq_dec r r).
Qed.

Lemma items_of_released_other (r r' : pystr) (w : response) :
  r' <> r -> items_of r (released r' w) = 0%nat.
Proof.
  intros Hne. unfold items_of. rewrite released_repo.
  destruct (has_release w); simpl; [|reflexivity].
  now destruct (pystr_eq_dec r' r).
Qed.

(** The contributions of all tasks, in submission order, split off the
    first task. *)
Lemma contributions_cons (r0 : pystr) (repos : list pystr)
  (net : nat -> response) :
  flat_map (contribution (r0 :: repos) net) (seq 0 (length (r0 :: repos))) =
  released r0 (net 0%nat) ++
  flat_map (contribution repos (fun i => net (S i))) (seq 0 (length repos)).
Proof.
  cbn [length seq flat_map]. f_equal.
  rewrite <- seq_shift, flat_map_concat_map, map_map, <- flat_map_concat_map.
  reflexivity.
Qed.

Lemma items_of_absent (r : pystr) (repos : list pystr) (net : nat -> response) :
  ~ In r repos ->
  items_of r (flat_map (contribution repos net) (seq 0 (length repos))) = 0%nat.
Proof.
  revert net; induction repos as [|r0 repos IH]; intros net Hnin.
  - reflexivity.
  - rewrite contributions_cons, items_of_app.
    rewrite items_of_released_other by (intros ->; apply Hnin; now left).
    rewrite IH by (intros Hin; apply Hnin; now right).
    reflexivity.
Qed.

Lemma items_of_present (repos : list pystr) (net : nat -> response)
  (i : nat) (r : pystr) :
  NoDup repos ->
  nth_error repos i = Some r ->
  items_of r (flat_map (contribution repos net) (seq 0 (length repos))) =
  match has_release (net i) with Some _ => 1%nat | None => 0%nat end.
Proof.
  revert net i; induction repos as [|r0 repos IH]; intros net i Hnd Hi.
  - now destruct i.
  - inversion Hnd as [|? ? Hnin Hnd']; subst.
    rewrite contributions_cons, items_of_app.
    destruct i as [|i]; simpl in Hi.
    + injection Hi as ->.
      rewrite items_of_released_same, items_of_absent by assumption. lia.
    + rewrite items_of_released_other.
      * now rewrite (IH (fun i => net (S i)) i Hnd' Hi).
      * intros ->. apply Hnin. eapply nth_error_In; eassumption.
Qed.

Lemma contribution_repo (repos : list pystr) (net : nat -> response) (i : nat) :
  Forall (fun it => In (repo it) repos) (contribution repos net i).
Proof.
  unfold contribution. destruct (nth_error repos i) as [r|] eqn:E; [|constructor].
  rewrite released_eq. destruct (has_release (net i)); constructor; [|constructor].
  simpl. eapply nth_error_In; eassumption.
Qed.





(** ** Failures of single repositories *)

(** A fetch that fails yields nothing. *)
Lemma error_kind_no_release (w : response) (k : fetch_error) :
  error_kind w = Some k -> has_release w = None.
Proof.
  unfold error_kind, has_release.
  destruct w as [tok [c|e] [[bz es]|e'] nw]; cbn;
    try (destruct (Z.eqb_spec c 404) as [->|?]; cbn);
    try (destruct (Z.eqb_spec c 200) as [->|?]; cbn);
    try (destruct es as [[|? ?]|]; cbn);
    intros H; try reflexivity; discriminate.
Qed.

(** Every failure is logged under its kind. *)
Lemma error_kind_reported (r : pystr) (w : response) (k : fetch_error) :
  error_kind w = Some k ->
  existsb (reports k r) (trace (fetch_repo_releases r w)) = true.
Proof.
  unfold error_kind, trace, fetch_repo_releases, fetch_repo_releases_try,
    fetch_repo_releases_except, try_except, do_head, do_parse.
  case_response w; destruct k; cbn; intros H;
    try reflexivity; try discriminate; try congruence.
Qed.

(** A document flagged as not well-formed is used like any other: only the
    entries decide. *)
Lemma bozo_is_only_a_warning (tok nw : pystr) (bz : bool)
  (es : option (list feed_entry)) (r : pystr) :
  released r {| github_token := tok; head := HeadStatus 200;
                parsed := Parsed {| bozo := bz; entries := es |};
                now_iso := nw |} =
  released r {| github_token := tok; head := HeadStatus 200;
                parsed := Parsed {| bozo := false; entries := es |};
                now_iso := nw |}.
Proof. rewrite !released_eq. reflexivity. Qed.

Lemma contribution_of_failure (repos : list pystr) (net : nat -> response)
  (i : nat) (k : fetch_error) :
  error_kind (net i) = Some k -> contribution repos net i = [].
Proof.
  intros Hk. unfold contribution.
  destruct (nth_error repos i); [|reflexivity].
  now rewrite released_eq, (error_kind_no_release _ _ Hk).
Qed.

Lemma flat_map_without_failures (repos : list pystr) (net : nat -> response)
  (l : list nat) :
  flat_map (contribution repos net) (filter (no_error net) l) =
  flat_map (contribution repos net) l.
Proof.
  induction l as [|i l IH]; simpl; [reflexivity|].
  unfold no_error at 1.
  destruct (error_kind (net i)) as [k|] eqn:Hk; simpl.
  - now rewrite (contribution_of_failure repos net i k Hk).
  - now rewrite IH.
Qed.

(** C6. [fetch_all_releases] never raises, whatever the repositories
    answer and in whatever order the tasks complete.  A repository whose
    fetch fails, with a 404, a connection or request error, another status
    than 200, a timeout, an error of no known class or a malformed
    document from which nothing is recovered, contributes no item; the
    result is a rearrangement of the contributions of the repositories
    whose fetch did not fail and, when no repository is listed twice,
    holds no item of a failing one. *)
Theorem fetch_all_releases_tolerates_failures
  (repos : list pystr) (net : nat -> response) (order : list nat) :
  exists items,
    outcome (fetch_all_releases repos net order) = Ok items /\
    (forall i k, error_kind (net i) = Some k ->
       contribution repos net i = []) /\
    (Permutation order (seq 0 (length repos)) ->
     Permutation items
       (flat_map (contribution repos net)
          (filter (no_error net) (seq 0 (length repos)))) /\
     (NoDup repos ->
      forall i r k, nth_error repos i = Some r ->
        error_kind (net i) = Some k -> items_of r items = 0%nat)).
Proof.
  destruct (fetch_all_releases_run repos net order) as (t & Hrun & _).
  eexists. split; [rewrite Hrun; reflexivity|]. split.
  - intros i k. apply contribution_of_failure.
  - intros Hperm.
    assert (Hitems :
      Permutation
        match repos with
        | [] => []
        | _ :: _ => sort_updated_desc (flat_map (contribution repos net) order)
        end
        (flat_map (contribution repos net) (seq 0 (length repos)))).
    { destruct repos as [|r0 repos]; [reflexivity|].
      rewrite sort_updated_desc_perm. now apply flat_map_perm. }
    split.
    + now rewrite flat_map_without_failures.
    + intros Hnd i r k Hi Hk. rewrite (items_of_perm r _ _ Hitems).
      rewrite (items_of_present repos net i r Hnd Hi).
      now rewrite (error_kind_no_release _ _ Hk).
Qed.

(** ** Requests of one fetch *)

(** C8, at a repository that answers 200: the existence check is issued
    with the configured timeout, the content fetch with none. *)
Theorem content_fetch_without_timeout (stamp : string) :
  map request_timeout
    (requests_of (trace (fetch_repo_releases (py "a/x") (example_ok stamp)))) =
  [Some REQUEST_TIMEOUT; None].
Proof. reflexivity. Qed.

(** ** The stored summary *)

(** C9. When the fetch goes through and the summary of the first entry is
    not empty, the item stores the unescaped summary: cut to its first 500
    characters followed by ["..."] when it is longer than 500 characters,
    unchanged otherwise. *)
Theorem summary_unescaped_then_capped
  (r : pystr) (w : response) (entry : feed_entry) (s : pystr) :
  has_release w = Some entry ->
  get (e_summary entry) (get (e_description entry) []) = s ->
  s <> [] ->
  exists item,
    outcome (fetch_repo_releases r w) = Ok [item] /\
    (500 < length (html_unescape s) ->
     summary item = firstn 500 (html_unescape s) ++ py "..." /\
     length (summary item) = 503)%nat /\
    (length (html_unescape s) <= 500 ->
     summary item = html_unescape s)%nat.
Proof.
  intros Hrel Hs Hne.
  exists (make_entry_data r entry w).
  rewrite fetch_repo_releases_outcome, Hrel.
  split; [reflexivity|].
  cbn [summary make_entry_data]. unfold stored_summary. rewrite Hs.
  destruct s as [|c s]; [congruence|]. cbn [truthy]. unfold slice_to.
  split; intros Hlen.
  - apply Nat.ltb_lt in Hlen as Hb. rewrite Hb. split; [reflexivity|].
    rewrite length_app, length_firstn.
    change (length (py "...")) with 3%nat. lia.
  - apply Nat.ltb_ge in Hlen. now rewrite Hlen.
Qed.

(** An empty summary is stored as it is, without unescaping. *)
Lemma empty_summary_stored (entry : feed_entry) :
  get (e_summary entry) (get (e_description entry) []) = [] ->
  stored_summary entry = [].
Proof. unfold stored_summary. now intros ->. Qed.

(** ** Stopping the worker *)

(** C10. [stop_auto_refresh] sets the running flag to [False] and leaves
    the settings, the cache entry and the recorded thread as they were; it
    issues no request and starts no rebuild. *)
Theorem stop_auto_refresh_frame (st : state) :
  exists st',
    stop_auto_refresh st = ([Log Info msg_auto_refresh_stopped], Ok st') /\
    auto_refresh_running st' = false /\
    settings_of st' = settings_of st /\
    cache_of st' = cache_of st /\
    data (cache_of st') = data (cache_of st) /\
    timestamp (cache_of st') = timestamp (cache_of st) /\
    refresh_thread st' = refresh_thread st.
Proof. exists (set_running st false). repeat split. Qed.

(** ** The cache read *)

Lemma rebuild_run (cfg : settings) (io : rebuild_io) :
  exists t entries,
    rebuild cfg io = (t, Ok (entries, create_rss_feed cfg io entries)) /\
    outcome (fetch_all_releases (io_repos io) (io_net io) (io_order io))
      = Ok entries /\
    count_fetch_all t = 1%nat.
Proof.
  destruct (fetch_all_releases_run (io_repos io) (io_net io) (io_order io))
    as (t & Hrun & Hc).
  unfold rebuild. rewrite Hrun. cbn. eexists _, _.
  split; [reflexivity|]. split; [reflexivity|].
  now rewrite app_nil_r.
Qed.

Lemma cache_hit_iff (st : state) (t : Z) (d : rss_xml) :
  cache_hit st t = Some d <->
  data (cache_of st) = Some d /\
  (t - timestamp (cache_of st) < cache_duration (settings_of st))%Z.
Proof.
  unfold cache_hit. destruct (data (cache_of st)) as [d'|].
  - destruct (Z.ltb_spec (t - timestamp (cache_of st))
                (cache_duration (settings_of st))); split.
    + intros [= <-]. auto.
    + now intros [[= <-] _].
    + discriminate.
    + intros [_ ?]. lia.
  - split; [discriminate|]. now intros [? _].
Qed.

Lemma cache_hit_none_iff (st : state) (t : Z) :
  cache_hit st t = None <->
  ~ (data (cache_of st) <> None /\
     (t - timestamp (cache_of st) < cache_duration (settings_of st))%Z).
Proof.
  destruct (cache_hit st t) as [d|] eqn:E.
  - apply cache_hit_iff in E as [Hd Ht]. split; [discriminate|].
    intros H. exfalso. apply H. split; [congruence|assumption].
  - split; [|reflexivity]. intros _ [Hd Ht].
    destruct (data (cache_of st)) as [d|] eqn:Ed; [|congruence].
    assert (H : cache_hit st t = Some d) by now apply cache_hit_iff.
    congruence.
Qed.

Lemma get_cached_data_hit (st : state) (t : Z) (io : rebuild_io) (d : rss_xml) :
  cache_hit st t = Some d ->
  get_cached_data st t io = ([Log Info msg_cache_hit], Ok (d, st)).
Proof. unfold get_cached_data. now intros ->. Qed.

Lemma get_cached_data_miss (st : state) (t : Z) (io : rebuild_io) :
  cache_hit st t = None ->
  exists tr entries,
    let rss := create_rss_feed (settings_of st) io entries in
    get_cached_data st t io = (tr, Ok (rss, store_cache st rss t)) /\
    outcome (fetch_all_releases (io_repos io) (io_net io) (io_order io))
      = Ok entries /\
    count_fetch_all tr = 1%nat.
Proof.
  intros Hmiss. unfold get_cached_data. rewrite Hmiss.
  destruct (rebuild_run (settings_of st) io) as (t1 & entries & Hrun & Hout & Hc).
  rewrite Hrun. cbn. exists (Log Info msg_cache_miss :: t1 ++ []), entries.
  split; [reflexivity|]. split; [assumption|].
  rewrite app_nil_r.
  change (Log Info msg_cache_miss :: t1) with ([Log Info msg_cache_miss] ++ t1).
  now rewrite count_fetch_all_app, Hc.
Qed.


(** On a miss [fetch_all_releases] is invoked exactly once. *)
Lemma get_cached_data_miss_fetches_once (st : state) (t : Z) (io : rebuild_io) :
  cache_hit st t = None ->
  count_fetch_all (trace (get_cached_data st t io)) = 1%nat.
Proof.
  intros E. destruct (get_cached_data_miss st t io E) as (tr & entries & Hrun & _ & Hc).
  cbv zeta in Hrun. now rewrite Hrun.
Qed.

(** An empty result is no error.  When the cache misses and the rebuild
    has nothing to merge, because no repository is configured or because
    no task yields an entry, [get_cached_data] stores the document without
    items together with the clock it read on entry, before the rebuild,
    and every later call that reads a clock within the cache duration of
    that reading is served this document without a rebuild. *)
Lemma get_cached_data_caches_empty_result
  (st : state) (t : Z) (io : rebuild_io) :
  cache_hit st t = None ->
  (io_repos io = [] \/
   forall i, In i (io_order io) -> has_release (io_net io i) = None) ->
  exists tr rss,
    get_cached_data st t io = (tr, Ok (rss, store_cache st rss t)) /\
    rss_items rss = [] /\
    rss_count rss = 0%nat /\
    data (cache_of (store_cache st rss t)) = Some rss /\
    timestamp (cache_of (store_cache st rss t)) = t /\
    forall t' io',
      (t' - t < cache_duration (settings_of st))%Z ->
      get_cached_data (store_cache st rss t) t' io' =
        ([Log Info msg_cache_hit], Ok (rss, store_cache st rss t)).
Proof.
  intros Hmiss Hempty.
  destruct (get_cached_data_miss st t io Hmiss) as (tr & entries & Hrun & Hout & _).
  cbv zeta in Hrun.
  assert (He : entries = []).
  { destruct Hempty as [Hnone | Hfail].
    - rewrite Hnone in Hout. cbn in Hout. congruence.
    - rewrite (fetch_all_releases_all_failed _ _ _ Hfail) in Hout. congruence. }
  subst entries.
  exists tr, (create_rss_feed (settings_of st) io []).
  split; [exact Hrun|]. repeat split.
  intros t' io' Ht'. apply get_cached_data_hit.
  apply cache_hit_iff. split; [reflexivity|exact Ht'].
Qed.

(** In the thread model the step of [stop_auto_refresh] is always enabled
    and changes the flag, the thread's own control point and the log,
    nothing else. *)
Lemma stop_step_frame (w : world) (tid : nat) (io : rebuild_io) :
  nth_error (threads w) tid = Some Stop_start ->
  step (Step tid io) w =
    Some {| now := now w;
            shared := set_running (shared w) false;
            lock := lock w;
            threads := set_nth tid Finished (threads w);
            history := history w
                         ++ [(tid, Ev (Log Info msg_auto_refresh_stopped))] |}.
Proof. intros Hpc. unfold step, run_thread. now rewrite Hpc. Qed.

(** ** The invariant of the cache entry *)

Lemma cache_invariant_clear (st : state) :
  cache_invariant (cache_of (clear_cache st)).
Proof. unfold cache_invariant; simpl. split; [congruence|lia]. Qed.

Lemma cache_invariant_store (st : state) (rss : rss_xml) (t : Z) :
  (0 < t)%Z -> cache_invariant (cache_of (store_cache st rss t)).
Proof. unfold cache_invariant; simpl. split; [auto|congruence]. Qed.

Lemma Forall_set_nth {A} (P : A -> Prop) (n : nat) (x : A) (l : list A) :
  P x -> Forall P l -> Forall P (set_nth n x l).
Proof.
  intros Hx Hl. revert n.
  induction Hl as [|y l Hy Hl IH]; intros [|n]; simpl; auto.
Qed.

Lemma Forall_nth_error {A} (P : A -> Prop) (n : nat) (x : A) (l : list A) :
  Forall P l -> nth_error l n = Some x -> P x.
Proof.
  intros Hl Hn. rewrite Forall_forall in Hl.
  apply Hl. eapply nth_error_In; eassumption.
Qed.

Create HintDb cache_inv.
#[local] Hint Resolve cache_invariant_clear cache_invariant_store
  Forall_set_nth : cache_inv.

Ltac split_run_thread :=
  repeat match goal with
    | H : context [if ?b then _ else _] |- _ => destruct b eqn:?
    | H : context [match rebuild ?a ?b with _ => _ end] |- _ =>
        destruct (rebuild a b) as [? [?|?]]
    | H : context [match cache_hit ?a ?b with _ => _ end] |- _ =>
        destruct (cache_hit a b)
    end.

Lemma run_thread_preserves (clock : Z) (st : state) (lk : option nat)
  (ths : list pc) (tid : nat) (io : rebuild_io) (r : step_result) :
  (0 < clock)%Z ->
  Forall pc_clock_positive ths ->
  cache_invariant (cache_of st) ->
  run_thread clock st lk ths tid io = Some r ->
  Forall pc_clock_positive (sr_threads r) /\
  cache_invariant (cache_of (sr_shared r)).
Proof.
  intros Hclock Hths Hinv Hrun. unfold run_thread in Hrun.
  destruct (nth_error ths tid) as [p|] eqn:Hp; [|discriminate].
  pose proof (Forall_nth_error _ _ _ _ Hths Hp) as Hpos.
  destruct p; unfold goto, spawn_worker in Hrun; split_run_thread;
    try discriminate; injection Hrun as <-; simpl in *;
    (split;
     [ try apply Forall_app; try split;
       auto using Forall_set_nth with cache_inv;
       try (repeat constructor); try (apply Forall_set_nth; simpl; auto)
     | auto with cache_inv ]).
  all: unfold cache_invariant; simpl; split; intros; try congruence; lia.
Qed.

Lemma step_preserves_world_invariant (a : action) (w w' : world) :
  world_invariant w -> step a w = Some w' -> world_invariant w'.
Proof.
  intros (Hnow & Hths & Hinv) Hstep.
  unfold world_invariant. destruct a as [dt|p|tid io]; simpl in Hstep.
  - destruct (Z.leb_spec 0 dt); [|discriminate].
    injection Hstep as <-; simpl. repeat split; auto; try apply Hinv. lia.
  - destruct (is_entry p) eqn:Hp; [|discriminate].
    injection Hstep as <-; simpl. repeat split; auto; try apply Hinv.
    apply Forall_app; split; [assumption|].
    constructor; [|constructor]. now destruct p.
  - destruct (run_thread (now w) (shared w) (lock w) (threads w) tid io)
      as [r|] eqn:Hrun; [|discriminate].
    injection Hstep as <-; simpl.
    destruct (run_thread_preserves _ _ _ _ _ _ _ Hnow Hths Hinv Hrun).
    auto.
Qed.

(** The invariant holds in every state the program reaches. *)
Lemma run_preserves_invariant (acts : list action) (w w' : world) :
  world_invariant w -> run acts w = Some w' -> world_invariant w'.
Proof.
  revert w; induction acts as [|a acts IH]; simpl; intros w Hinv Hrun.
  - now injection Hrun as <-.
  - destruct (step a w) as [w1|] eqn:Hstep; [|discriminate].
    apply (IH w1); [|assumption].
    now apply (step_preserves_world_invariant a w w1).
Qed.

(** C5. Every transition of the system keeps the cache entry's invariant,
    [data is not None] if and only if [timestamp > 0]: the warm-up at
    startup, the read on a hit and on a miss, the forced refresh, the
    invalidating routes, the tick of the worker, in any interleaving and
    also between the two lock-protected blocks of an operation; the clock
    is taken to read a time after the epoch. *)
Theorem step_preserves_cache_invariant (a : action) (w w' : world) :
  world_invariant w ->
  step a w = Some w' ->
  world_invariant w' /\
  (data (cache_of (shared w')) <> None <->
   (0 < timestamp (cache_of (shared w')))%Z).
Proof.
  intros Hinv Hstep.
  assert (H : world_invariant w')
    by exact (step_preserves_world_invariant a w w' Hinv Hstep).
  split; [exact H|apply H].
Qed.

Lemma initial_world_invariant (cfg : settings) (t0 : Z) :
  (0 < t0)%Z -> world_invariant (initial_world cfg t0).
Proof.
  intros H. repeat split; simpl; auto; try lia; try congruence.
Qed.

(** The operations run without interference end in a state that satisfies
    the invariant as well. *)
Lemma operations_keep_invariant (st : state) (io : rebuild_io) (t : Z) :
  cache_invariant (cache_of st) ->
  (0 < t)%Z ->
  (forall tr d st', get_cached_data st t io = (tr, Ok (d, st')) ->
     cache_invariant (cache_of st')) /\
  (forall env tr st', startup_cache_warmup env st io t = (tr, Ok st') ->
     cache_invariant (cache_of st')) /\
  (forall tr st' code, refresh st io t = (tr, Ok (st', code)) ->
     cache_invariant (cache_of st')) /\
  (forall tr st', auto_refresh_tick st io t = (tr, Ok st') ->
     cache_invariant (cache_of st')) /\
  (forall saved, cache_invariant (cache_of (fst (save_token saved st)))) /\
  (forall saved, cache_invariant (cache_of (fst (save_repos_route saved st)))).
Proof.
  intros Hinv Ht.
  destruct (rebuild_run (settings_of st) io) as (t1 & entries & Hrun & _ & _).
  split; [|split; [|split; [|split; [|split]]]].
  - intros tr d st'. unfold get_cached_data.
    destruct (cache_hit st t); cbn; [intros [= _ _ <-]; assumption|].
    rewrite Hrun. cbn. intros [= _ _ <-]. auto with cache_inv.
  - intros env tr st'. unfold startup_cache_warmup.
    destruct (negb _); cbn; [intros [= _ <-]; assumption|].
    rewrite Hrun. cbn. intros [= _ <-]. auto with cache_inv.
  - intros tr st' code. unfold refresh. cbn. rewrite Hrun. cbn.
    intros H. injection H as _ <- _. now apply cache_invariant_store.
  - intros tr st'. unfold auto_refresh_tick. cbn. rewrite Hrun. cbn.
    intros H. injection H as _ <-. now apply cache_invariant_store.
  - intros [|]; [apply cache_invariant_clear|assumption].
  - intros [|]; [apply cache_invariant_clear|assumption].
Qed.

(** ** A reader in the thread model *)

Lemma nth_error_set_nth_eq {A} (n : nat) (x y : A) (l : list A) :
  nth_error l n = Some y -> nth_error (set_nth n x l) n = Some x.
Proof.
  revert n; induction l as [|z l IH]; intros [|n]; simpl;
    try discriminate; auto.
Qed.

Lemma nth_error_set_nth_neq {A} (n m : nat) (x : A) (l : list A) :
  n <> m -> nth_error (set_nth n x l) m = nth_error l m.
Proof.
  revert n m; induction l as [|z l IH]; intros [|n] [|m] H; simpl;
    try reflexivity; try congruence.
  apply IH. congruence.
Qed.

Lemma fetches_app (h h' : list (nat * observation)) :
  fetches (h ++ h') = (fetches h + fetches h')%nat.
Proof. unfold fetches. now rewrite filter_app, length_app. Qed.

Lemma served_to_app (tid : nat) (h h' : list (nat * observation)) :
  served_to tid (h ++ h') = served_to tid h ++ served_to tid h'.
Proof. unfold served_to. apply flat_map_app. Qed.

Lemma fetches_events (tid : nat) (t : list event) :
  fetches (map (pair tid) (map Ev t)) = count_fetch_all t.
Proof.
  unfold fetches, count_fetch_all.
  induction t as [|[r|l m|] t IH]; simpl; auto.
Qed.

Lemma served_to_events (tid : nat) (t : list event) :
  served_to tid (map (pair tid) (map Ev t)) = [].
Proof. induction t as [|e t IH]; simpl; auto. Qed.

(** A reader that gets the lock and is not delayed by others does what
    [get_cached_data] does with the clock it reads on entry, however long
    its rebuild lasts: same new state, same document, same number of
    invocations of [fetch_all_releases]. *)
Lemma reader_alone_runs_get_cached_data
  (w : world) (tid : nat) (io : rebuild_io) (dt : Z)
  (tr : list event) (d : rss_xml) (st' : state) :
  lock w = None ->
  nth_error (threads w) tid = Some G_waiting ->
  (0 <= dt)%Z ->
  get_cached_data (shared w) (now w) io = (tr, Ok (d, st')) ->
  exists w',
    (run [Step tid io] w = Some w' \/
     run [Step tid io; Tick dt; Step tid io] w = Some w') /\
    shared w' = st' /\
    lock w' = None /\
    nth_error (threads w') tid = Some Finished /\
    served_to tid (history w') = served_to tid (history w) ++ [d] /\
    fetches (history w') = (fetches (history w) + count_fetch_all tr)%nat.
Proof.
  intros Hlock Hpc Hdt Hget.
  destruct (cache_hit (shared w) (now w)) as [d0|] eqn:Hhit.
  - rewrite (get_cached_data_hit _ _ io _ Hhit) in Hget.
    injection Hget as <- <- <-.
    eexists. split; [left|].
    + cbn [run step]. unfold run_thread.
      rewrite Hpc, Hlock, Hhit. cbn. reflexivity.
    + cbn [shared lock threads history].
      rewrite served_to_app, fetches_app. cbn.
      rewrite Nat.eqb_refl, Nat.add_0_r.
      repeat split; auto.
      eapply nth_error_set_nth_eq; eassumption.
  - destruct (rebuild_run (settings_of (shared w)) io)
      as (t1 & entries & Hrun & _ & Hc).
    unfold get_cached_data in Hget. rewrite Hhit, Hrun in Hget. cbn in Hget.
    injection Hget as <- <- <-.
    eexists. split; [right|].
    + cbn [run step]. unfold run_thread at 1.
      rewrite Hpc, Hlock, Hhit. cbn.
      apply Z.leb_le in Hdt. rewrite Hdt. cbn.
      unfold run_thread.
      rewrite (nth_error_set_nth_eq _ _ _ _ Hpc). rewrite Hrun. cbn.
      reflexivity.
    + cbn [shared lock threads history].
      assert (Hc' : count_fetch_all (Log Info msg_cache_miss :: t1 ++ [])
                    = count_fetch_all t1) by now rewrite app_nil_r.
      rewrite Hc', map_app, !served_to_app, !fetches_app.
      rewrite fetches_events, served_to_events. cbn.
      rewrite Nat.eqb_refl.
      repeat split; auto; try lia.
      * erewrite nth_error_set_nth_eq; [reflexivity|].
        eapply nth_error_set_nth_eq; eassumption.
      * now rewrite !app_nil_r.
Qed.

(** ** Readers that wait for the lock *)

(** A reader that finds the lock taken waits; when it gets the lock it
    compares its own clock with the time the previous reader read on
    entry, before its rebuild. *)
Lemma reader_after_rebuild (st : state) (t t' : Z) (io io' : rebuild_io)
  (tr : list event) (rss : rss_xml) (st1 : state) :
  cache_hit st t = None ->
  get_cached_data st t io = (tr, Ok (rss, st1)) ->
  ((t' - t < cache_duration (settings_of st))%Z ->
   get_cached_data st1 t' io' = ([Log Info msg_cache_hit], Ok (rss, st1))) /\
  ((cache_duration (settings_of st) <= t' - t)%Z ->
   count_fetch_all (trace (get_cached_data st1 t' io')) = 1%nat).
Proof.
  intros Hmiss Hget.
  destruct (get_cached_data_miss st t io Hmiss) as (tr0 & entries & Hrun & _ & _).
  cbv zeta in Hrun. rewrite Hrun in Hget. injection Hget as _ <- <-.
  split; intros Ht.
  - apply get_cached_data_hit. apply cache_hit_iff. split; [reflexivity|exact Ht].
  - apply get_cached_data_miss_fetches_once.
    apply cache_hit_none_iff. simpl. intros [_ H]. lia.
Qed.

(** C2, at two readers and a rebuild that outlasts the cache duration: the
    second reader, which waited for the lock while the first rebuilt,
    rebuilds again. *)
Theorem waiting_reader_rebuilds_again :
  exists w,
    run (example_two_readers_on 31) (initial_world example_settings 1000)
      = Some w /\
    fetches (history w) = 2%nat /\
    fetches_by 0 (history w) = 1%nat /\
    fetches_by 1 (history w) = 1%nat.
Proof.
  eexists. split; [vm_compute; reflexivity|]. vm_compute. repeat split.
Qed.

(** With a rebuild shorter than the cache duration the second reader is
    served the document the first one built. *)
Lemma waiting_reader_served_from_cache :
  exists w,
    run (example_two_readers 29) (initial_world example_settings 1000) = Some w /\
    fetches (history w) = 1%nat /\
    served_to 1 (history w) = served_to 0 (history w) /\
    length (served_to 1 (history w)) = 1%nat.
Proof.
  eexists. split; [vm_compute; reflexivity|]. vm_compute. repeat split.
Qed.

(** ** A rebuild with nothing to merge, and how long it lasts *)

(** A reader that ends its rebuild stores the document under the clock it
    read before it started, whatever the clock has become.  With nothing
    to merge the document has no item; it is stored all the same, and it
    is expired on arrival exactly when the rebuild took the cache
    duration or longer. *)
Lemma reader_stores_under_entry_clock
  (w : world) (tid : nat) (t : Z) (io : rebuild_io) :
  nth_error (threads w) tid = Some (G_fetching t) ->
  (io_repos io = [] \/
   forall i, In i (io_order io) -> has_release (io_net io i) = None) ->
  exists w' d,
    step (Step tid io) w = Some w' /\
    data (cache_of (shared w')) = Some d /\
    rss_items d = [] /\
    timestamp (cache_of (shared w')) = t /\
    now w' = now w /\
    (cache_hit (shared w') (now w') = None <->
     (cache_duration (settings_of (shared w)) <= now w - t)%Z).
Proof.
  intros Hpc Hempty.
  destruct (rebuild_run (settings_of (shared w)) io)
    as (tr & entries & Hreb & Hout & _).
  assert (He : entries = []).
  { destruct Hempty as [Hnone | Hfail].
    - rewrite Hnone in Hout. cbn in Hout. congruence.
    - rewrite (fetch_all_releases_all_failed _ _ _ Hfail) in Hout.
      congruence. }
  subst entries.
  eexists _, (create_rss_feed (settings_of (shared w)) io []). split.
  - cbn [step]. unfold run_thread. rewrite Hpc, Hreb.
    cbn [goto snd]. reflexivity.
  - cbn [shared now sr_shared store_cache set_cache cache_of data timestamp].
    split; [reflexivity|]. split; [reflexivity|]. split; [reflexivity|].
    split; [reflexivity|].
    rewrite cache_hit_none_iff.
    cbn [store_cache set_cache cache_of data timestamp settings_of].
    split.
    + intros H.
      destruct (Z_lt_le_dec (now w - t)
                  (cache_duration (settings_of (shared w))))
        as [Hlt | Hle]; [|exact Hle].
      exfalso. apply H. split; [discriminate|exact Hlt].
    + intros H [_ Hlt]. lia.
Qed.

(** C7, at a rebuild in which every repository fails and which outlasts
    the cache duration: the empty document is stored, but under the clock
    read before the rebuild, so it is expired when it arrives and the next
    reader rebuilds at once. *)
Theorem empty_result_stored_already_expired :
  exists w d w',
    run (example_slow_empty_rebuild 31) (initial_world example_settings 1000)
      = Some w /\
    data (cache_of (shared w)) = Some d /\
    rss_items d = [] /\
    timestamp (cache_of (shared w)) = 1000%Z /\
    now w = 1031%Z /\
    nth_error (threads w) 1 = Some (G_fetching 1031) /\
    run (example_slow_empty_rebuild_on 31)
      (initial_world example_settings 1000) = Some w' /\
    fetches (history w') = 2%nat /\
    fetches_by 1 (history w') = 1%nat.
Proof.
  eexists _, _, _. split; [vm_compute; reflexivity|].
  split; [vm_compute; reflexivity|].
  split; [reflexivity|]. split; [reflexivity|]. split; [reflexivity|].
  split; [reflexivity|]. split; [vm_compute; reflexivity|].
  vm_compute. split; reflexivity.
Qed.

(** With a rebuild shorter than the cache duration the empty document is
    served to the next reader. *)
Lemma empty_result_served_after_short_rebuild :
  exists w d,
    run (example_slow_empty_rebuild 29) (initial_world example_settings 1000)
      = Some w /\
    fetches (history w) = 1%nat /\
    served_to 1 (history w) = [d] /\
    rss_items d = [].
Proof.
  eexists _, _. split; [vm_compute; reflexivity|].
  split; [vm_compute; reflexivity|].
  split; [vm_compute; reflexivity|]. reflexivity.
Qed.

(** ** The worker and its restart *)

(** A worker that wakes looks at the flag only: it does not matter which
    thread set it. *)
Lemma woken_worker_ticks_when_flag_set (clock : Z) (st : state)
  (lk : option nat) (ths : list pc) (tid : nat) (io : rebuild_io) (wake : Z) :
  nth_error ths tid = Some (W_sleeping wake) ->
  (wake <= clock)%Z ->
  auto_refresh_running st = true ->
  run_thread clock st lk ths tid io =
    goto st lk ths tid W_clearing [Ev (Log Info msg_auto_refresh_tick)].
Proof.
  intros Hp Hw Hflag. unfold run_thread. rewrite Hp, Hflag.
  apply Z.leb_le in Hw. now rewrite Hw.
Qed.

(** A worker that wakes while the flag is down leaves its loop without a
    rebuild. *)
Lemma woken_worker_leaves_when_flag_down (clock : Z) (st : state)
  (lk : option nat) (ths : list pc) (tid : nat) (io : rebuild_io) (wake : Z) :
  nth_error ths tid = Some (W_sleeping wake) ->
  (wake <= clock)%Z ->
  auto_refresh_running st = false ->
  run_thread clock st lk ths tid io = goto st lk ths tid W_loop [] /\
  run_thread clock st lk (set_nth tid W_loop ths) tid io =
    goto st lk (set_nth tid W_loop ths) tid Finished [].
Proof.
  intros Hp Hw Hflag. unfold run_thread. rewrite Hp, Hflag.
  apply Z.leb_le in Hw. rewrite Hw. split; [reflexivity|].
  assert (E : nth_error (set_nth tid W_loop ths) tid = Some W_loop).
  { clear Hw Hflag. revert tid Hp.
    induction ths as [|q ths IH]; intros [|tid]; simpl; try discriminate; auto. }
  now rewrite E.
Qed.

(** C4, at a restart ten seconds into the 60-second sleep of the worker:
    the superseded worker (thread 1) wakes after the restart, finds the
    flag set again by its successor (thread 3), rebuilds the cache and
    goes back to the head of its loop. *)
Theorem superseded_worker_rebuilds_after_restart :
  exists w,
    run example_restart (initial_world example_settings 1000) = Some w /\
    refresh_thread (shared w) = Some 3%nat /\
    nth_error (threads w) 3 = Some (W_sleeping 1071) /\
    fetches_by 1 (since_restart (history w)) = 1%nat /\
    nth_error (threads w) 1 = Some W_loop /\
    timestamp (cache_of (shared w)) = 1060%Z.
Proof.
  eexists. split; [vm_compute; reflexivity|]. vm_compute. repeat split.
Qed.

(** ** Stripping and lines *)

Lemma lstrip_spaces (u : pystr) : forallb is_space u = true -> lstrip u = [].
Proof.
  induction u as [|c u IH]; simpl; [reflexivity|].
  intros H. apply andb_prop in H as [Hc Hu]. rewrite Hc. auto.
Qed.

Lemma rstrip_spaces (u : pystr) : forallb is_space u = true -> rstrip u = [].
Proof.
  induction u as [|c u IH]; simpl; [reflexivity|].
  intros H. apply andb_prop in H as [Hc Hu]. now rewrite (IH Hu), Hc.
Qed.

Lemma rstrip_app_spaces (s u : pystr) :
  forallb is_space u = true -> rstrip (s ++ u) = rstrip s.
Proof.
  intros Hu. induction s as [|c s IH]; simpl.
  - now apply rstrip_spaces.
  - now rewrite IH.
Qed.

Lemma lstrip_app_spaces (s u : pystr) :
  forallb is_space u = true ->
  lstrip (s ++ u) = match lstrip s with [] => [] | l => l ++ u end.
Proof.
  intros Hu. induction s as [|c s IH]; simpl.
  - now apply lstrip_spaces.
  - destruct (is_space c); [exact IH|reflexivity].
Qed.

Lemma strip_app_spaces (s u : pystr) :
  forallb is_space u = true -> strip (s ++ u) = strip s.
Proof.
  intros Hu. unfold strip. rewrite (lstrip_app_spaces s u Hu).
  destruct (lstrip s) as [|c l]; [reflexivity|].
  now apply rstrip_app_spaces.
Qed.

Lemma strip_spaces (u : pystr) : forallb is_space u = true -> strip u = [].
Proof. intros H. unfold strip. now rewrite lstrip_spaces. Qed.

Lemma strip_cons_space (c : N) (s : pystr) :
  is_space c = true -> strip (c :: s) = strip s.
Proof. intros H. unfold strip. simpl. now rewrite H. Qed.

(** The text is what [rstrip] keeps followed by whitespace. *)
Lemma rstrip_decompose (s : pystr) :
  exists u, s = rstrip s ++ u /\ forallb is_space u = true.
Proof.
  induction s as [|c s (u & Hs & Hu)]; simpl.
  - exists []. auto.
  - destruct (rstrip s) as [|x r] eqn:E.
    + destruct (is_space c) eqn:Hc.
      * exists (c :: s). split; [reflexivity|].
        simpl in Hs. subst s. simpl. now rewrite Hc.
      * exists s. split; [reflexivity|]. simpl in Hs. now subst s.
    + exists u. split; [|assumption]. simpl. now rewrite Hs at 1.
Qed.

Lemma lstrip_head (s : pystr) (c : N) (r : pystr) :
  lstrip s = c :: r -> is_space c = false.
Proof.
  induction s as [|x s IH]; simpl; [discriminate|].
  destruct (is_space x) eqn:Hx; [exact IH|].
  now intros [= <- _].
Qed.

Lemma rstrip_last (s x : pystr) (c : N) :
  rstrip s = x ++ [c] -> is_space c = false.
Proof.
  revert x; induction s as [|y s IH]; intros x; simpl.
  - now destruct x.
  - destruct (rstrip s) as [|z r] eqn:E.
    + destruct (is_space y) eqn:Hy.
      * now destruct x.
      * destruct x as [|? [|? ?]]; simpl; try discriminate.
        now intros [= <-].
    + destruct x as [|x0 x]; simpl; [discriminate|].
      intros [= _ H]. now apply (IH x).
Qed.

Lemma rstrip_head (s : pystr) (c : N) (r : pystr) :
  is_space c = false -> rstrip (c :: s) = c :: rstrip s.
Proof. intros Hc. simpl. destruct (rstrip s); [now rewrite Hc|reflexivity]. Qed.

Lemma rstrip_idem (s : pystr) : rstrip (rstrip s) = rstrip s.
Proof.
  induction s as [|c s IH]; simpl; [reflexivity|].
  destruct (rstrip s) as [|x r] eqn:E.
  - destruct (is_space c) eqn:Hc; simpl; [reflexivity|now rewrite Hc].
  - simpl in *. now rewrite IH.
Qed.

(** [strip] leaves no whitespace at either end and is idempotent. *)
Lemma strip_head (s : pystr) (c : N) (r : pystr) :
  strip s = c :: r -> is_space c = false.
Proof.
  unfold strip. destruct (lstrip s) as [|x l] eqn:E; [discriminate|].
  pose proof (lstrip_head s x l E) as Hx.
  rewrite (rstrip_head l x l Hx). now intros [= <- _].
Qed.

Lemma strip_last (s x : pystr) (c : N) :
  strip s = x ++ [c] -> is_space c = false.
Proof. unfold strip. apply rstrip_last. Qed.

Lemma strip_idem (s : pystr) : strip (strip s) = strip s.
Proof.
  destruct (strip s) as [|c r] eqn:E; [reflexivity|].
  pose proof (strip_head s c r E) as Hc.
  unfold strip at 1. simpl. rewrite Hc.
  change (rstrip (c :: r) = c :: r). rewrite <- E.
  unfold strip. apply rstrip_idem.
Qed.

(** ** The repository name pattern *)

Lemma span_chars_spec (p : N -> bool) (s a r : pystr) :
  span_chars p s = (a, r) ->
  s = a ++ r /\ forallb p a = true /\
  match r with [] => True | c :: _ => p c = false end.
Proof.
  revert a r; induction s as [|c s IH]; simpl; intros a r.
  - intros [= <- <-]. auto.
  - destruct (p c) eqn:Hc.
    + destruct (span_chars p s) as [a' r'] eqn:E.
      intros [= <- <-]. destruct (IH a' r' eq_refl) as (-> & Ha & Hr).
      simpl. rewrite Hc. auto.
    + intros [= <- <-]. simpl. rewrite Hc. auto.
Qed.

Lemma span_chars_app (p : N -> bool) (a r : pystr) :
  forallb p a = true ->
  match r with [] => True | c :: _ => p c = false end ->
  span_chars p (a ++ r) = (a, r).
Proof.
  intros Ha Hr. induction a as [|c a IH]; simpl.
  - destruct r as [|c r]; [reflexivity|]. simpl. now rewrite Hr.
  - simpl in Ha. apply andb_prop in Ha as [Hc Ha].
    now rewrite Hc, (IH Ha).
Qed.

Lemma valid_format_shape (s : pystr) :
  is_valid_repo_format s = true <->
  exists owner name tail,
    s = owner ++ slash :: name ++ tail /\
    owner <> [] /\ name <> [] /\
    forallb repo_char owner = true /\
    forallb repo_char name = true /\
    (tail = [] \/ tail = [newline]).
Proof.
  unfold is_valid_repo_format. split.
  - destruct (span_chars repo_char s) as [a r] eqn:Ea.
    destruct (span_chars_spec _ _ _ _ Ea) as (-> & Ha & _).
    destruct a as [|a0 a]; [discriminate|].
    destruct r as [|c r]; [discriminate|].
    destruct (N.eqb_spec c slash) as [->|]; [|discriminate].
    destruct (span_chars repo_char r) as [b t] eqn:Eb.
    destruct (span_chars_spec _ _ _ _ Eb) as (-> & Hb & _).
    destruct b as [|b0 b]; [discriminate|].
    destruct t as [|c' [|? ?]]; try discriminate.
    + intros _. exists (a0 :: a), (b0 :: b), [].
      repeat split; auto; discriminate.
    + intros H. apply N.eqb_eq in H as ->.
      exists (a0 :: a), (b0 :: b), [newline].
      repeat split; auto; discriminate.
  - intros (owner & name & tail & -> & Ho & Hn & Hfo & Hfn & Ht).
    rewrite (span_chars_app repo_char owner (slash :: name ++ tail) Hfo)
      by reflexivity.
    destruct owner as [|o0 owner]; [congruence|].
    rewrite N.eqb_refl.
    rewrite (span_chars_app repo_char name tail Hfn)
      by (destruct Ht as [-> | ->]; [exact I|reflexivity]).
    destruct name as [|n0 name]; [congruence|].
    destruct Ht as [-> | ->]; reflexivity.
Qed.

Lemma valid_is_not_blank_or_comment (s : pystr) :
  is_valid_repo_format s = true ->
  truthy s = true /\ startswith hash s = false.
Proof.
  intros H. apply valid_format_shape in H
    as (owner & name & tail & -> & Ho & _ & Hfo & _).
  destruct owner as [|c owner]; [congruence|]. simpl in *.
  split; [reflexivity|].
  apply andb_prop in Hfo as [Hc _].
  destruct (N.eqb_spec c hash) as [->|]; [discriminate|reflexivity].
Qed.

(** X1. [is_valid_repo_format] accepts exactly the strings
    [owner/name], with a non-empty owner and a non-empty name over
    letters, digits, dot, underscore and hyphen, and the same strings
    followed by one newline, which [$] lets through. *)
Theorem is_valid_repo_format_iff (s : pystr) :
  is_valid_repo_format s = true <->
  exists owner name tail,
    s = owner ++ slash :: name ++ tail /\
    owner <> [] /\ name <> [] /\
    forallb repo_char owner = true /\
    forallb repo_char name = true /\
    (tail = [] \/ tail = [newline]).
Proof. exact (valid_format_shape s). Qed.

(** ** Loading the repository list *)

Lemma load_repos_lines_fst (n : nat) (lines : list pystr) :
  fst (load_repos_lines n lines) =
  filter is_valid_repo_format (map strip lines).
Proof.
  revert n; induction lines as [|line lines IH]; intros n; simpl;
    [reflexivity|].
  specialize (IH (S n)).
  destruct (load_repos_lines (S n) lines) as [repos warned]. simpl in IH.
  destruct (is_valid_repo_format (strip line)) eqn:Hv.
  - destruct (valid_is_not_blank_or_comment _ Hv) as [-> ->]. simpl.
    now rewrite IH.
  - destruct (negb (truthy (strip line)) || startswith hash (strip line));
      simpl; exact IH.
Qed.

Lemma load_repos_lines_snd (n : nat) (lines : list pystr)
  (m : nat) (l : pystr) :
  In (m, l) (snd (load_repos_lines n lines)) <->
  exists i line,
    m = (n + i)%nat /\ nth_error lines i = Some line /\ strip line = l /\
    truthy l = true /\ startswith hash l = false /\
    is_valid_repo_format l = false.
Proof.
  revert n; induction lines as [|line lines IH]; intros n; simpl.
  - split; [contradiction|]. intros (i & x & _ & H & _). now destruct i.
  - specialize (IH (S n)).
    destruct (load_repos_lines (S n) lines) as [repos warned]. simpl in IH.
    assert (Hrest :
      In (m, l) warned <->
      exists i line0, m = (n + S i)%nat /\ nth_error lines i = Some line0 /\
        strip line0 = l /\ truthy l = true /\ startswith hash l = false /\
        is_valid_repo_format l = false).
    { rewrite IH. split; intros (i & x & Hm & H); exists i, x;
        (split; [lia|exact H]). }
    destruct (truthy (strip line)) eqn:Ht; simpl.
    + destruct (startswith hash (strip line)) eqn:Hh; simpl.
      * rewrite Hrest. split.
        -- intros (i & x & H). exists (S i), x. exact H.
        -- intros ([|i] & x & Hm & Hx & Hs & Ht' & Hh' & Hv).
           ++ simpl in Hx. injection Hx as <-. congruence.
           ++ exists i, x. tauto.
      * destruct (is_valid_repo_format (strip line)) eqn:Hv; simpl.
        -- rewrite Hrest. split.
           ++ intros (i & x & H). exists (S i), x. exact H.
           ++ intros ([|i] & x & Hm & Hx & Hs & Ht' & Hh' & Hv').
              ** simpl in Hx. injection Hx as <-. congruence.
              ** exists i, x. tauto.
        -- rewrite Hrest. split.
           ++ intros [[= <- <-] | (i & x & H)].
              ** exists 0%nat, line. rewrite Nat.add_0_r. tauto.
              ** exists (S i), x. exact H.
           ++ intros ([|i] & x & Hm & Hx & Hs & H).
              ** left. simpl in Hx. injection Hx as <-.
                 rewrite Nat.add_0_r in Hm. now subst.
              ** right. exists i, x. tauto.
    + rewrite Hrest. split.
      * intros (i & x & H). exists (S i), x. exact H.
      * intros ([|i] & x & Hm & Hx & Hs & Ht' & Hh' & Hv).
        -- simpl in Hx. injection Hx as <-. congruence.
        -- exists i, x. tauto.
Qed.

(** X2. [load_repos] returns, in the order of the file, exactly the
    stripped lines that match the repository pattern; blank lines,
    comments and every other line are passed over without failing.  So
    each repository returned is valid, and a missing or unreadable file
    gives the empty list. *)
Theorem load_repos_returns_valid_lines (f : file) :
  fst (load_repos f) =
    match f with
    | Content text =>
        filter is_valid_repo_format (map strip (readlines text))
    | Missing | Unreadable _ => []
    end /\
  Forall (fun r => is_valid_repo_format r = true) (fst (load_repos f)).
Proof.
  assert (H : fst (load_repos f) =
    match f with
    | Content text =>
        filter is_valid_repo_format (map strip (readlines text))
    | Missing | Unreadable _ => []
    end).
  { destruct f; simpl; auto. apply load_repos_lines_fst. }
  split; [exact H|]. rewrite H.
  destruct f; try constructor.
  apply Forall_forall. intros r Hr. now apply filter_In in Hr.
Qed.

(** X3. [load_repos] warns about exactly the lines it has read that
    are neither blank nor a comment nor a valid repository, each under
    its 1-based line number in the file and in its stripped form.  That
    holds for a file read to its end and for one that fails part-way: the
    lines delivered before the error have had their warnings although the
    list returned is then empty; a missing file gives none. *)
Theorem load_repos_warns_about_invalid_lines
  (f : file) (line_num : nat) (l : pystr) :
  (In (line_num, l) (snd (load_repos f)) <->
   exists i line,
     line_num = S i /\
     nth_error
       match f with
       | Missing => []
       | Unreadable delivered => delivered
       | Content text => readlines text
       end i = Some line /\
     strip line = l /\
     l <> [] /\ startswith hash l = false /\
     is_valid_repo_format l = false) /\
  (forall delivered, f = Unreadable delivered -> fst (load_repos f) = []).
Proof.
  split; [|now intros delivered ->].
  assert (H : snd (load_repos f) = snd (load_repos_lines 1 (lines_of f)))
    by now destruct f.
  rewrite H, load_repos_lines_snd.
  change (match f with
          | Missing => []
          | Unreadable delivered => delivered
          | Content text => readlines text
          end) with (lines_of f).
  split; intros (i & line & Hm & Hi & Hs & Ht & Hh & Hv); exists i, line;
    repeat split; auto.
  - destruct l; [discriminate|congruence].
  - now destruct l.
Qed.

Lemma readlines_cons (c : N) (s : pystr) :
  readlines (c :: s) =
  if N.eqb c newline then [c] :: readlines s
  else match readlines s with
       | [] => [[c]]
       | l :: ls => (c :: l) :: ls
       end.
Proof. reflexivity. Qed.

Lemma readlines_spaces (u : pystr) :
  forallb is_space u = true ->
  Forall (fun l => forallb is_space l = true) (readlines u).
Proof.
  induction u as [|c u IH]; intros H; [constructor|].
  simpl in H. apply andb_prop in H as [Hc Hu]. specialize (IH Hu).
  rewrite readlines_cons. destruct (N.eqb c newline).
  - constructor; [simpl; now rewrite Hc|assumption].
  - destruct (readlines u) as [|l ls].
    + constructor; [simpl; now rewrite Hc|constructor].
    + inversion IH; subst. constructor; [simpl; now rewrite Hc|assumption].
Qed.

Lemma blank_lines_dropped (B : list pystr) :
  Forall (fun l => forallb is_space l = true) B ->
  filter is_valid_repo_format (map strip B) = [].
Proof.
  induction 1 as [|l B Hl _ IH]; simpl; [reflexivity|].
  now rewrite (strip_spaces l Hl).
Qed.

(** Whitespace appended to a text extends its last line and adds blank
    lines, nothing else. *)
Lemma readlines_app_spaces (x u : pystr) :
  forallb is_space u = true ->
  exists L last ws B,
    readlines x = L ++ last /\
    readlines (x ++ u) = L ++ map (fun l => l ++ ws) last ++ B /\
    (length last <= 1)%nat /\
    forallb is_space ws = true /\
    Forall (fun l => forallb is_space l = true) B.
Proof.
  intros Hu. induction x as [|c x IH].
  - exists [], [], [], (readlines u). simpl.
    repeat split; auto. now apply readlines_spaces.
  - destruct IH as (L & last & ws & B & Hx & Hxu & Hlen & Hws & HB).
    change ((c :: x) ++ u) with (c :: (x ++ u)).
    rewrite !readlines_cons, Hx, Hxu.
    destruct (N.eqb c newline).
    + exists ([c] :: L), last, ws, B. repeat split; auto.
    + destruct L as [|l0 L]; simpl.
      * destruct last as [|l [|? ?]]; simpl in *; try lia.
        -- destruct B as [|b B].
           ++ exists [], [[c]], [], []. simpl. repeat split; auto.
           ++ inversion HB; subst.
              exists [], [[c]], b, B. simpl. repeat split; auto.
        -- exists [], [c :: l], ws, B. simpl. repeat split; auto.
      * exists ((c :: l0) :: L), last, ws, B. repeat split; auto.
Qed.

Lemma valid_lines_app_spaces (x u : pystr) :
  forallb is_space u = true ->
  filter is_valid_repo_format (map strip (readlines (x ++ u))) =
  filter is_valid_repo_format (map strip (readlines x)).
Proof.
  intros Hu.
  destruct (readlines_app_spaces x u Hu)
    as (L & last & ws & B & -> & -> & _ & Hws & HB).
  rewrite !map_app, !filter_app.
  pose proof (blank_lines_dropped B HB) as E.
  unfold pystr in *. rewrite E, app_nil_r.
  f_equal. rewrite map_map. f_equal.
  apply map_ext. intros l. now apply strip_app_spaces.
Qed.

Lemma valid_lines_cons_space (c : N) (t : pystr) :
  is_space c = true ->
  filter is_valid_repo_format (map strip (readlines (c :: t))) =
  filter is_valid_repo_format (map strip (readlines t)).
Proof.
  intros Hc. rewrite readlines_cons. destruct (N.eqb c newline).
  - simpl. rewrite (strip_spaces [c]); [reflexivity|].
    simpl. now rewrite Hc.
  - destruct (readlines t) as [|l ls]; simpl.
    + rewrite (strip_spaces [c]); [reflexivity|]. simpl. now rewrite Hc.
    + now rewrite (strip_cons_space c l Hc).
Qed.

Lemma valid_lines_strip (t : pystr) :
  filter is_valid_repo_format (map strip (readlines (strip t))) =
  filter is_valid_repo_format (map strip (readlines t)).
Proof.
  assert (Hl : filter is_valid_repo_format (map strip (readlines (lstrip t))) =
               filter is_valid_repo_format (map strip (readlines t))).
  { induction t as [|c t IH]; [reflexivity|]. simpl lstrip.
    destruct (is_space c) eqn:Hc; [|reflexivity].
    now rewrite IH, (valid_lines_cons_space c t Hc). }
  rewrite <- Hl. unfold strip.
  destruct (rstrip_decompose (lstrip t)) as (u & Hs & Hu).
  rewrite Hs at 2. symmetry. now apply valid_lines_app_spaces.
Qed.

(** ** Line ends of a text written and read back *)

Lemma universal_newlines_spaces (u : pystr) :
  forallb is_space u = true -> forallb is_space (universal_newlines u) = true.
Proof.
  induction u as [|c u IH]; [reflexivity|].
  intros H. apply andb_true_iff in H as [Hc Hu]. specialize (IH Hu).
  cbn [universal_newlines].
  destruct (N.eqb c carriage_return).
  - destruct u as [|c' u]; [reflexivity|].
    destruct (N.eqb c' newline); [exact IH|].
    cbn [forallb]. now rewrite IH.
  - cbn [forallb]. now rewrite Hc, IH.
Qed.

Lemma universal_newlines_app (a : pystr) (c : N) (s : pystr) :
  N.eqb c newline = false ->
  universal_newlines (a ++ c :: s) =
  universal_newlines a ++ universal_newlines (c :: s).
Proof.
  intros Hc. induction a as [|x a IH]; [reflexivity|].
  cbn [app universal_newlines].
  destruct (N.eqb x carriage_return).
  - destruct a as [|y a].
    + cbn [app]. now rewrite Hc.
    + cbn [app] in *. destruct (N.eqb y newline); [exact IH|].
      now rewrite IH.
  - now rewrite IH.
Qed.

Lemma not_space_not_newline (c : N) :
  is_space c = false -> N.eqb c newline = false.
Proof.
  intros H. destruct (N.eqb c newline) eqn:E; [|reflexivity].
  apply N.eqb_eq in E. subst c. discriminate H.
Qed.

Lemma not_space_not_carriage_return (c : N) :
  is_space c = false -> N.eqb c carriage_return = false.
Proof.
  intros H. destruct (N.eqb c carriage_return) eqn:E; [|reflexivity].
  apply N.eqb_eq in E. subst c. discriminate H.
Qed.

(** Text whose last character is no whitespace is translated apart from
    what follows it. *)
Lemma universal_newlines_app_last (x : pystr) (c : N) (b : pystr) :
  is_space c = false ->
  universal_newlines ((x ++ [c]) ++ b) =
  universal_newlines (x ++ [c]) ++ universal_newlines b.
Proof.
  intros Hc. rewrite <- app_assoc. cbn [app].
  rewrite !universal_newlines_app by now apply not_space_not_newline.
  cbn [universal_newlines].
  rewrite (not_space_not_carriage_return c Hc).
  now rewrite <- app_assoc.
Qed.

Lemma lstrip_decompose (s : pystr) :
  exists u, s = u ++ lstrip s /\ forallb is_space u = true.
Proof.
  induction s as [|c s (u & Hs & Hu)]; [now exists []|].
  cbn [lstrip]. destruct (is_space c) eqn:Hc.
  - exists (c :: u). cbn. now rewrite Hc, Hu, <- Hs.
  - now exists [].
Qed.

Lemma valid_lines_spaces_app (u t : pystr) :
  forallb is_space u = true ->
  filter is_valid_repo_format (map strip (readlines (u ++ t))) =
  filter is_valid_repo_format (map strip (readlines t)).
Proof.
  induction u as [|c u IH]; [reflexivity|].
  intros H. apply andb_true_iff in H as [Hc Hu].
  cbn [app]. rewrite (valid_lines_cons_space c (u ++ t) Hc). now apply IH.
Qed.

Lemma strip_decompose (s : pystr) :
  exists a b, s = a ++ strip s ++ b /\
              forallb is_space a = true /\ forallb is_space b = true.
Proof.
  destruct (lstrip_decompose s) as (a & Hs & Ha).
  destruct (rstrip_decompose (lstrip s)) as (b & Hl & Hb).
  exists a, b. unfold strip. now rewrite <- Hl, <- Hs.
Qed.


Lemma rstrip_app_last (x : pystr) (c : N) :
  is_space c = false -> rstrip (x ++ [c]) = x ++ [c].
Proof.
  intros Hc. induction x as [|y x IH]; cbn [app rstrip].
  - now rewrite Hc.
  - rewrite IH. destruct x; reflexivity.
Qed.

Lemma universal_newlines_last (x : pystr) (c : N) :
  is_space c = false ->
  universal_newlines (x ++ [c]) = universal_newlines x ++ [c].
Proof.
  intros Hc.
  rewrite universal_newlines_app by now apply not_space_not_newline.
  cbn [universal_newlines].
  now rewrite (not_space_not_carriage_return c Hc).
Qed.

(** The route strips the form before the text is written; read back, the
    valid lines are those of the form itself. *)
Lemma valid_lines_universal_strip (s : pystr) :
  filter is_valid_repo_format
    (map strip (readlines (universal_newlines (strip s)))) =
  filter is_valid_repo_format
    (map strip (readlines (universal_newlines s))).
Proof.
  destruct (strip_decompose s) as (a & b & Hs & Ha & Hb).
  destruct (strip s) as [|h m] eqn:Hm.
  - cbn [app] in Hs. symmetry.
    apply blank_lines_dropped, readlines_spaces, universal_newlines_spaces.
    rewrite Hs, forallb_app. now rewrite Ha, Hb.
  - assert (Hh : is_space h = false) by (eapply strip_head; eassumption).
    destruct (@exists_last _ (h :: m) ltac:(discriminate)) as (x & c & Hx).
    assert (Hc : is_space c = false).
    { eapply (strip_last s x c). now rewrite Hm. }
    rewrite Hs.
    cbn [app].
    rewrite (universal_newlines_app a h (m ++ b))
      by now apply not_space_not_newline.
    change (h :: m ++ b) with ((h :: m) ++ b).
    rewrite Hx, (universal_newlines_app_last x c b Hc).
    rewrite valid_lines_spaces_app by now apply universal_newlines_spaces.
    symmetry. apply valid_lines_app_spaces.
    now apply universal_newlines_spaces.
Qed.

(** A stripped text is still stripped after the translation of its line
    ends, and is empty only if it was. *)
Lemma strip_universal_newlines (s : pystr) :
  strip (universal_newlines (strip s)) = universal_newlines (strip s) /\
  truthy (universal_newlines (strip s)) = truthy (strip s).
Proof.
  destruct (strip s) as [|h m] eqn:Hm; [split; reflexivity|].
  assert (Hh : is_space h = false) by (eapply strip_head; eassumption).
  destruct (@exists_last _ (h :: m) ltac:(discriminate)) as (x & c & Hx).
  assert (Hc : is_space c = false).
  { eapply (strip_last s x c). now rewrite Hm. }
  split.
  - rewrite Hx, (universal_newlines_last x c Hc).
    assert (Hl : lstrip (universal_newlines x ++ [c])
                 = universal_newlines x ++ [c]).
    { rewrite <- (universal_newlines_last x c Hc), <- Hx.
      cbn [universal_newlines].
      rewrite (not_space_not_carriage_return h Hh).
      cbn [lstrip]. now rewrite Hh. }
    unfold strip. rewrite Hl. now apply rstrip_app_last.
  - cbn [universal_newlines].
    now rewrite (not_space_not_carriage_return h Hh).
Qed.

(** X4. Saving the repository list and loading it again: [load_repos]
    reads back exactly the valid stripped lines of the text of the form,
    whether its lines end in a newline, a carriage return or both; that
    the route strips the text before it writes it changes nothing.  A
    successful save empties the cache, a failing one leaves it alone and
    answers 500. *)
Theorem save_repos_then_load (form : pystr) (wr : write_result) (st : state) :
  match wr with
  | Written =>
      fst (load_repos (fst (save_repos_request form wr st))) =
        filter is_valid_repo_format
          (map strip (readlines (universal_newlines form))) /\
      snd (save_repos_request form wr st) = (clear_cache st, 200%Z)
  | WriteFails remains =>
      save_repos_request form wr st = (remains, (st, 500%Z))
  end.
Proof.
  destruct wr as [|remains]; [|reflexivity].
  split; [|reflexivity].
  unfold save_repos_request, save_repos, write_file, load_repos. simpl fst.
  rewrite load_repos_lines_fst. apply valid_lines_universal_strip.
Qed.

(** ** Repository names *)

Lemma repo_chars_no_slash (s : pystr) :
  forallb repo_char s = true -> contains slash s = false.
Proof.
  unfold contains. induction s as [|c s IH]; cbn [existsb forallb];
    [reflexivity|].
  intros H. apply andb_prop in H as [Hc Hs]. rewrite (IH Hs), orb_false_r.
  destruct (N.eqb_spec slash c) as [<-|]; [discriminate|reflexivity].
Qed.

Lemma split_no_sep (sep : N) (s : pystr) :
  contains sep s = false -> split sep s = [s].
Proof.
  unfold contains. induction s as [|c s IH]; cbn [existsb split];
    [reflexivity|].
  intros H. apply orb_false_elim in H as [Hc Hs].
  rewrite N.eqb_sym, Hc, (IH Hs). reflexivity.
Qed.

Lemma split_app_sep (sep : N) (a b : pystr) :
  contains sep a = false -> split sep (a ++ sep :: b) = a :: split sep b.
Proof.
  unfold contains. induction a as [|c a IH]; cbn [existsb split app].
  - now rewrite N.eqb_refl.
  - intros H. apply orb_false_elim in H as [Hc Ha].
    rewrite N.eqb_sym, Hc, (IH Ha). reflexivity.
Qed.

Lemma contains_app_sep (sep : N) (a b : pystr) :
  contains sep (a ++ sep :: b) = true.
Proof.
  unfold contains. rewrite existsb_app. cbn [existsb].
  now rewrite N.eqb_refl, orb_true_r.
Qed.

Lemma repo_name_of_valid (owner name : pystr) :
  forallb repo_char owner = true ->
  forallb repo_char name = true ->
  repo_name (owner ++ slash :: name) = name.
Proof.
  intros Ho Hn. unfold repo_name.
  rewrite contains_app_sep, split_app_sep by now apply repo_chars_no_slash.
  rewrite split_no_sep by now apply repo_chars_no_slash.
  reflexivity.
Qed.

(** X5. Every repository [load_repos] returns is [owner/name] with
    nothing around it, owner and name non-empty and free of slashes and
    whitespace, and the short name that [fetch_repo_releases] puts in
    front of the title is that name. *)
Theorem loaded_repo_has_owner_and_name (f : file) (r : pystr) :
  In r (fst (load_repos f)) ->
  exists owner name,
    r = owner ++ slash :: name /\
    owner <> [] /\ name <> [] /\
    forallb repo_char owner = true /\
    forallb repo_char name = true /\
    repo_name r = name /\
    forall entry w,
      title (make_entry_data r entry w) =
      name ++ py " - " ++ get (e_title entry) default_title.
Proof.
  intros Hin.
  assert (H : is_valid_repo_format r = true /\ exists line, strip line = r).
  { destruct f; simpl in Hin; try contradiction.
    rewrite load_repos_lines_fst in Hin.
    apply filter_In in Hin as [Hin Hv]. split; [exact Hv|].
    apply in_map_iff in Hin as (line & Hl & _). now exists line. }
  destruct H as [Hv [line Hline]].
  apply valid_format_shape in Hv
    as (owner & name & tail & Hr & Ho & Hn & Hfo & Hfn & [-> | ->]).
  - rewrite app_nil_r in Hr. exists owner, name.
    repeat split; auto.
    + subst r. now apply repo_name_of_valid.
    + intros entry w. simpl. subst r.
      now rewrite repo_name_of_valid.
  - exfalso. subst r.
    assert (E : strip line = (owner ++ slash :: name) ++ [newline])
      by (rewrite Hline, <- app_assoc; reflexivity).
    apply strip_last in E. discriminate.
Qed.

(** ** The token *)

(** X6. Saving a token and loading it again: the token read back is the
    saved one without surrounding whitespace, a carriage return inside it
    being read as a newline; when the saved token is blank the
    environment's token is used instead, so an empty form does not switch
    the token off.  A successful save empties the cache, a failing one
    leaves it alone and answers 500. *)
Theorem save_token_then_load
  (form : pystr) (wr : write_result) (st : state) (env : pystr) :
  match wr with
  | Written =>
      load_github_token (fst (save_token_request form wr st)) env =
        (if truthy (strip form)
         then universal_newlines (strip form) else env) /\
      snd (save_token_request form wr st) = (clear_cache st, 200%Z)
  | WriteFails remains =>
      save_token_request form wr st = (remains, (st, 500%Z))
  end.
Proof.
  destruct wr as [|remains]; [|reflexivity].
  split; [|reflexivity].
  unfold save_token_request, save_github_token, write_file, load_github_token.
  simpl fst. rewrite strip_idem.
  destruct (strip_universal_newlines form) as [-> ->]. reflexivity.
Qed.

(** [load_github_token] prefers the token file: a file with
    something else than whitespace gives its stripped content, whatever
    the environment holds; a missing, unreadable or blank file gives the
    environment's token as it is. *)
Theorem load_github_token_precedence (f : file) (env : pystr) :
  (forall text, f = Content text -> strip text <> [] ->
     load_github_token f env = strip text /\
     load_github_token f env <> [] /\
     strip (load_github_token f env) = load_github_token f env) /\
  ((f = Missing \/ (exists delivered, f = Unreadable delivered) \/
    exists text, f = Content text /\ strip text = []) ->
   load_github_token f env = env).
Proof.
  split.
  - intros text -> Hne. unfold load_github_token.
    destruct (strip text) as [|c t] eqn:E; [congruence|]. simpl.
    repeat split; [discriminate|]. rewrite <- E. apply strip_idem.
  - intros [-> | [(delivered & ->) | (text & -> & E)]]; try reflexivity.
    unfold load_github_token. now rewrite E.
Qed.

(** ** The feed route *)

Lemma get_cached_data_run (st : state) (t : Z) (io : rebuild_io) :
  exists tr rss st1,
    get_cached_data st t io = (tr, Ok (rss, st1)) /\
    (cache_hit st t = Some rss /\ st1 = st /\ count_fetch_all tr = 0%nat \/
     cache_hit st t = None /\ st1 = store_cache st rss t /\
     count_fetch_all tr = 1%nat).
Proof.
  destruct (cache_hit st t) as [d|] eqn:E.
  - exists [Log Info msg_cache_hit], d, st.
    rewrite (get_cached_data_hit st t io d E). auto.
  - destruct (get_cached_data_miss st t io E)
      as (tr & entries & Hrun & _ & Hc).
    cbv zeta in Hrun. eexists _, _, _. split; [exact Hrun|]. auto.
Qed.

Lemma slice_stop_length {A} (n : Z) (l : list A) :
  length (slice_stop n l) =
  if (0 <=? n)%Z then Nat.min (Z.to_nat n) (length l)
  else (length l - Z.to_nat (- n))%nat.
Proof.
  unfold slice_stop. destruct (0 <=? n)%Z; rewrite length_firstn; lia.
Qed.

(** X7. A [limit] below 100 makes [/rss] go around the cache: after the
    cached read it calls [fetch_all_releases] once more, also when the
    cache was fresh, and twice in all when it was not; the cache keeps
    what the cached read left, not the shortened document.  The answer
    holds the first [limit] entries of that second fetch, or, for a
    negative [limit], all but the last [-limit]. *)
Theorem aggregate_rss_small_limit
  (st : state) (limit t : Z) (io io' : rebuild_io) :
  (limit < 100)%Z ->
  exists tr rss st1 tr' entries,
    get_cached_data st t io = (tr, Ok (rss, st1)) /\
    fetch_all_releases (io_repos io') (io_net io') (io_order io')
      = (tr', Ok entries) /\
    aggregate_rss st (Limit limit) t io io' =
      (tr ++ tr',
       (st1, (200%Z,
              Some (create_rss_feed (settings_of st1) io'
                      (slice_stop limit entries))))) /\
    count_fetch_all (tr ++ tr') =
      (match cache_hit st t with Some _ => 1 | None => 2 end)%nat /\
    length (slice_stop limit entries) =
      (if (0 <=? limit)%Z then Nat.min (Z.to_nat limit) (length entries)
       else length entries - Z.to_nat (- limit))%nat.
Proof.
  intros Hlim.
  destruct (get_cached_data_run st t io) as (tr & rss & st1 & Hget & Hcase).
  destruct (fetch_all_releases_run (io_repos io') (io_net io') (io_order io'))
    as (tr' & Hrun & Hc').
  eexists tr, rss, st1, tr', _. split; [exact Hget|]. split; [exact Hrun|].
  split; [|split].
  - unfold aggregate_rss. rewrite Hget, Hrun.
    assert (Hb : (negb (limit =? Z.of_nat MAX_ENTRIES)
                  && (limit <? Z.of_nat MAX_ENTRIES))%Z = true).
    { unfold MAX_ENTRIES. apply andb_true_intro. split.
      - apply negb_true_iff, Z.eqb_neq. lia.
      - apply Z.ltb_lt. lia. }
    rewrite Hb. now rewrite Z.min_l by lia.
  - rewrite count_fetch_all_app, Hc'.
    destruct Hcase as [(-> & _ & ->) | (-> & _ & ->)]; reflexivity.
  - apply slice_stop_length.
Qed.

(** X8. [/rss] without a [limit], or with one of 100 or more, answers
    exactly what [get_cached_data] returns and does nothing else, so a
    large [limit] never yields more than the cached document; a [limit]
    that is not a number is answered with 500 after the cached read has
    taken place, rebuild included. *)
Theorem aggregate_rss_large_limit
  (st : state) (arg : limit_arg) (t : Z) (io io' : rebuild_io) :
  (arg = NoLimit \/ arg = BadLimit \/
   exists limit, arg = Limit limit /\ (100 <= limit)%Z) ->
  exists tr rss st1,
    get_cached_data st t io = (tr, Ok (rss, st1)) /\
    aggregate_rss st arg t io io' =
      (tr, (st1, match arg with
                 | BadLimit => (500%Z, None)
                 | _ => (200%Z, Some rss)
                 end)).
Proof.
  intros Harg.
  destruct (get_cached_data_run st t io) as (tr & rss & st1 & Hget & Hcase).
  exists tr, rss, st1. split; [exact Hget|].
  unfold aggregate_rss. rewrite Hget.
  destruct Harg as [-> | [-> | (limit & -> & Hl)]]; try reflexivity.
  assert (Hb : (limit <? Z.of_nat MAX_ENTRIES)%Z = false)
    by (apply Z.ltb_ge; unfold MAX_ENTRIES; lia).
  now rewrite Hb, andb_false_r.
Qed.

(** ** The status route *)

(** X9. [/status] and [get_cached_data] agree on the cache: on a cache
    entry that satisfies its invariant and was not stamped after the
    current clock, the status reports the cache as valid exactly when a
    read at that moment would be served from it, and reports the age -1
    and no last update exactly when the cache is empty. *)
Theorem status_agrees_with_cache
  (env : bool) (st : state) (clock : Z) (repos_file token_file : file)
  (env_token : pystr) :
  cache_invariant (cache_of st) ->
  (timestamp (cache_of st) <= clock)%Z ->
  let info := status env st clock repos_file token_file env_token in
  (cache_valid info = true <-> cache_hit st clock <> None) /\
  (cache_age_seconds info = (-1)%Z <-> data (cache_of st) = None) /\
  (last_update info = None <-> data (cache_of st) = None) /\
  (data (cache_of st) <> None ->
   cache_age_seconds info = (clock - timestamp (cache_of st))%Z /\
   last_update info = Some (timestamp (cache_of st))).
Proof.
  intros Hinv Hmono. unfold cache_invariant in Hinv. cbv zeta.
  unfold status, cache_hit; cbn [cache_valid cache_age_seconds last_update].
  destruct (Z.ltb_spec 0 (timestamp (cache_of st))) as [Hpos|Hnpos].
  - assert (Hd : data (cache_of st) <> None) by now apply Hinv.
    destruct (data (cache_of st)) as [d|] eqn:Ed; [|congruence].
    destruct (Z.leb_spec 0 (clock - timestamp (cache_of st))); [|lia].
    destruct (clock - timestamp (cache_of st) <?
              cache_duration (settings_of st))%Z;
      repeat split; intros; try discriminate; try congruence; try lia.
  - assert (Hd : data (cache_of st) = None).
    { destruct (data (cache_of st)) eqn:Ed; [|reflexivity].
      assert (0 < timestamp (cache_of st))%Z by (apply Hinv; congruence).
      lia. }
    rewrite Hd. cbn.
    repeat split; intros; try discriminate; try congruence.
Qed.

(** ** Order of the merged list *)

Lemma str_eqb_ltb (a b : pystr) :
  str_ltb a b = true -> str_eqb a b = false.
Proof. unfold str_ltb, str_eqb. now destruct (str_compare a b). Qed.

Lemma str_eqb_eq (a b : pystr) : str_eqb a b = true -> a = b.
Proof.
  unfold str_eqb. intros H. apply str_compare_eq.
  now destruct (str_compare a b).
Qed.

Lemma with_key_insert (k : pystr) (x : entry_data) (l : list entry_data) :
  with_key k (insert_desc x l) = with_key k (x :: l).
Proof.
  unfold with_key. induction l as [|y l IH]; [reflexivity|].
  cbn [insert_desc]. destruct (str_ltb (updated x) (updated y)) eqn:E;
    [|reflexivity].
  cbn [filter] in *. rewrite IH.
  destruct (str_eqb (updated x) k) eqn:Ex; [|reflexivity].
  destruct (str_eqb (updated y) k) eqn:Ey; [|reflexivity].
  apply str_eqb_eq in Ex, Ey. rewrite Ex, Ey, str_ltb_irrefl in E.
  discriminate.
Qed.

Lemma with_key_sort (k : pystr) (l : list entry_data) :
  with_key k (sort_updated_desc l) = with_key k l.
Proof.
  induction l as [|x l IH]; [reflexivity|].
  cbn [sort_updated_desc]. rewrite with_key_insert.
  unfold with_key in *. cbn [filter]. now rewrite IH.
Qed.

(** X10. The merge is stable: among the entries that carry the same
    [updated] key, [fetch_all_releases] keeps the order in which their
    tasks completed. *)
Theorem fetch_all_releases_keeps_completion_order_of_ties
  (repos : list pystr) (net : nat -> response) (order : list nat)
  (k : pystr) :
  exists items,
    outcome (fetch_all_releases repos net order) = Ok items /\
    with_key k items =
    with_key k (flat_map (contribution repos net) order).
Proof.
  destruct (fetch_all_releases_run repos net order) as (t & Hrun & _).
  eexists. split; [rewrite Hrun; reflexivity|].
  destruct repos as [|r0 repos]; [|apply with_key_sort].
  clear Hrun. induction order as [|i order IH]; [reflexivity|].
  cbn [flat_map]. unfold contribution at 1.
  destruct i; cbn [nth_error app]; exact IH.
Qed.

(** ** The document *)

Lemma sorted_desc_app (l1 l2 : list entry_data) :
  sorted_desc (l1 ++ l2) ->
  sorted_desc l1 /\
  forall a b, In a l1 -> In b l2 -> not_older a b.
Proof.
  unfold sorted_desc. induction l1 as [|x l1 IH]; simpl; intros Hs.
  - split; [constructor|]. contradiction.
  - inversion Hs as [|? ? Hs' Hx]; subst.
    destruct (IH Hs') as [Hl1 Hcross].
    apply Forall_app in Hx as [Hx1 Hx2]. split.
    + now constructor.
    + intros a b [<- | Ha] Hb.
      * rewrite Forall_forall in Hx2. now apply Hx2.
      * now apply Hcross.
Qed.

Lemma fetch_all_releases_sorted (repos : list pystr) (net : nat -> response)
  (order : list nat) (entries : list entry_data) :
  outcome (fetch_all_releases repos net order) = Ok entries ->
  sorted_desc entries.
Proof.
  destruct (fetch_all_releases_run repos net order) as (t & Hrun & _).
  rewrite Hrun. intros [= <-].
  destruct repos; [constructor|apply sort_updated_desc_sorted].
Qed.

(** X11. The document of a rebuild holds the newest entries: its items
    are the first 100 of the merged list, in descending order of
    [updated], and no entry left out is newer than an item kept; the
    count in the channel description is that of all entries, kept or
    not. *)
Theorem rebuild_keeps_newest_entries (cfg : settings) (io : rebuild_io) :
  exists t entries rss,
    rebuild cfg io = (t, Ok (entries, rss)) /\
    rss_items rss = firstn MAX_ENTRIES entries /\
    (length (rss_items rss) <= MAX_ENTRIES)%nat /\
    rss_count rss = length entries /\
    sorted_desc (rss_items rss) /\
    (forall a b, In a (rss_items rss) -> In b (skipn MAX_ENTRIES entries) ->
       not_older a b) /\
    rss_ttl rss = (cache_duration cfg / 60)%Z.
Proof.
  destruct (rebuild_run cfg io) as (t & entries & Hrun & Hout & _).
  exists t, entries, (create_rss_feed cfg io entries).
  split; [exact Hrun|]. cbn [rss_items rss_count rss_ttl create_rss_feed].
  pose proof (fetch_all_releases_sorted _ _ _ _ Hout) as Hs.
  rewrite <- (firstn_skipn MAX_ENTRIES entries) in Hs.
  apply sorted_desc_app in Hs as [Hs1 Hs2].
  repeat split; auto.
  rewrite length_firstn. lia.
Qed.

(** ** Shape of the items *)

Lemma has_prefix_app (p s : pystr) : has_prefix p (p ++ s) = true.
Proof.
  induction p as [|c p IH]; simpl; [reflexivity|].
  now rewrite N.eqb_refl, IH.
Qed.

Lemma stored_summary_length (entry : feed_entry) :
  (length (stored_summary entry) <= 503)%nat.
Proof.
  unfold stored_summary.
  destruct (get (e_summary entry) (get (e_description entry) []))
    as [|c s]; cbn [truthy]; [simpl; lia|].
  destruct (Nat.ltb_spec 500 (length (html_unescape (c :: s)))).
  - unfold slice_to. rewrite length_app, length_firstn.
    change (length (py "...")) with 3%nat. lia.
  - lia.
Qed.

Lemma released_shape (r : pystr) (w : response) (it : entry_data) :
  In it (released r w) ->
  repo it = r /\
  (length (summary it) <= 503)%nat /\
  has_prefix (repo_name r ++ py " - ") (title it) = true /\
  (now_iso w <> [] -> updated it <> []).
Proof.
  rewrite released_eq. destruct (has_release w) as [entry|];
    [|contradiction].
  intros [<- | []]. cbn [repo summary title updated make_entry_data].
  split; [reflexivity|]. split; [apply stored_summary_length|]. split.
  - rewrite app_assoc. apply has_prefix_app.
  - intros Hnow. unfold updated_time.
    destruct (get (e_updated entry) (get (e_published entry) []));
      simpl; [exact Hnow|discriminate].
Qed.

(** X12. Whatever the feeds hold, every item of the merged list has a
    summary of at most 503 characters, a title that begins with the short
    name of its repository followed by " - ", and, the clock's text being
    non-empty, a non-empty [updated] key to sort by.  This holds for every
    completion order. *)
Theorem merged_items_are_well_formed
  (repos : list pystr) (net : nat -> response) (order : list nat) :
  exists items,
    outcome (fetch_all_releases repos net order) = Ok items /\
    forall it, In it items ->
      (length (summary it) <= 503)%nat /\
      has_prefix (repo_name (repo it) ++ py " - ") (title it) = true /\
      ((forall i, now_iso (net i) <> []) -> updated it <> []).
Proof.
  destruct (fetch_all_releases_run repos net order) as (t & Hrun & _).
  eexists. split; [rewrite Hrun; reflexivity|].
  intros it Hin.
  assert (Hin' : In it (flat_map (contribution repos net) order)).
  { destruct repos as [|r0 repos]; [contradiction|].
    eapply Permutation_in; [apply sort_updated_desc_perm|exact Hin]. }
  apply in_flat_map in Hin' as (i & _ & Hi).
  unfold contribution in Hi.
  destruct (nth_error repos i) as [r|]; [|contradiction].
  destruct (released_shape r (net i) it Hi) as (<- & Hsum & Htitle & Hupd).
  repeat split; auto.
Qed.

(** ** Refresh and warm-up, then a read *)

(** X13. A forced refresh cannot fail: whatever the cache held and
    whatever the repositories answer, [refresh] invokes
    [fetch_all_releases] once, stores the new document under the clock it
    reads after the fetch and answers 200; a read within the cache
    duration of that clock is served this document without a rebuild. *)
Theorem refresh_then_read (st : state) (io : rebuild_io) (t : Z) :
  exists tr entries,
    let rss := create_rss_feed (settings_of st) io entries in
    let st' := store_cache (clear_cache st) rss t in
    refresh st io t = (tr, Ok (st', 200%Z)) /\
    count_fetch_all tr = 1%nat /\
    forall t' io',
      (t' - t < cache_duration (settings_of st))%Z ->
      get_cached_data st' t' io' = ([Log Info msg_cache_hit], Ok (rss, st')).
Proof.
  destruct (rebuild_run (settings_of st) io) as (t1 & entries & Hrun & _ & Hc).
  eexists _, entries. cbv zeta. split; [|split].
  - unfold refresh. cbn. rewrite Hrun. cbn. reflexivity.
  - match goal with
    | |- count_fetch_all (?a :: t1 ++ ?c) = _ =>
        change (count_fetch_all ([a] ++ t1 ++ c) = 1%nat)
    end.
    rewrite !count_fetch_all_app, Hc. reflexivity.
  - intros t' io' Ht'. apply get_cached_data_hit.
    apply cache_hit_iff. split; [reflexivity|exact Ht'].
Qed.

(** X14. The warm-up at startup runs only when both the environment's
    [STARTUP_REFRESH] and the setting [startup_refresh] are on; otherwise
    it leaves the state alone and fetches nothing.  When it runs it
    cannot fail, and the first read within the cache duration is served
    from the warm cache without a rebuild. *)
Theorem startup_cache_warmup_then_read
  (env : bool) (st : state) (io : rebuild_io) (t : Z) :
  (env && startup_refresh (settings_of st) = false ->
   startup_cache_warmup env st io t = ([Log Info msg_warmup_skipped], Ok st)) /\
  (env && startup_refresh (settings_of st) = true ->
   exists tr entries,
     let rss := create_rss_feed (settings_of st) io entries in
     let st' := store_cache st rss t in
     startup_cache_warmup env st io t = (tr, Ok st') /\
     count_fetch_all tr = 1%nat /\
     forall t' io',
       (t' - t < cache_duration (settings_of st))%Z ->
       get_cached_data st' t' io' =
         ([Log Info msg_cache_hit], Ok (rss, st'))).
Proof.
  unfold startup_cache_warmup. split; intros Hflag; rewrite Hflag; cbn.
  - reflexivity.
  - destruct (rebuild_run (settings_of st) io)
      as (t1 & entries & Hrun & _ & Hc).
    eexists _, entries. split; [|split].
    + rewrite Hrun. cbn. reflexivity.
    + match goal with
      | |- count_fetch_all (?a :: t1 ++ ?c) = _ =>
          change (count_fetch_all ([a] ++ t1 ++ c) = 1%nat)
      end.
      rewrite !count_fetch_all_app, Hc. reflexivity.
    + intros t' io' Ht'. apply get_cached_data_hit.
      apply cache_hit_iff. split; [reflexivity|exact Ht'].
Qed.

(** ** Further invariants of the thread model *)

Lemma length_set_nth {A} (n : nat) (x : A) (l : list A) :
  length (set_nth n x l) = length l.
Proof.
  revert n; induction l as [|y l IH]; intros [|n]; simpl; auto.
Qed.

Lemma nth_error_set_nth (n m : nat) (x : pc) (l : list pc) (q : pc) :
  nth_error (set_nth n x l) m = Some q ->
  (m = n /\ q = x /\ nth_error l n <> None) \/
  (m <> n /\ nth_error l m = Some q).
Proof.
  destruct (Nat.eq_dec n m) as [<-|Hne].
  - destruct (nth_error l n) as [y|] eqn:E.
    + rewrite (nth_error_set_nth_eq n x y l E). intros [= <-].
      left. repeat split; congruence.
    + intros H. exfalso.
      assert (n < length (set_nth n x l))%nat
        by (apply nth_error_Some; congruence).
      rewrite length_set_nth in *.
      apply nth_error_None in E. lia.
  - rewrite (nth_error_set_nth_neq n m x l Hne). right. split; auto.
Qed.

(** Case analysis on one step of a thread: the control point it was at,
    the rebuild it may have made, the branches it took. *)
Ltac thread_cases Hrun :=
  unfold run_thread, goto, spawn_worker in Hrun;
  match type of Hrun with
  | context [nth_error ?l ?n] =>
      let Hpc := fresh "Hpc" in
      destruct (nth_error l n) as [[]|] eqn:Hpc
  end;
  try discriminate Hrun;
  try match type of Hrun with
      | context [rebuild ?c ?i] =>
          let t := fresh "t" in
          let entries := fresh "entries" in
          let Hreb := fresh "Hreb" in
          let Hout := fresh "Hout" in
          let Hcnt := fresh "Hcnt" in
          destruct (rebuild_run c i) as (t & entries & Hreb & Hout & Hcnt);
          rewrite Hreb in Hrun
      end;
  repeat match type of Hrun with
    | context [if ?b then _ else _] => destruct b eqn:?
    | context [match cache_hit ?a ?b with _ => _ end] =>
        destruct (cache_hit a b) eqn:?
    end;
  try discriminate Hrun;
  injection Hrun as <-;
  cbn [sr_shared sr_lock sr_threads sr_seen] in *.





Lemma lock_free_none (lk : option nat) : lock_free lk = true -> lk = None.
Proof. now destruct lk. Qed.

Lemma lock_ok_step_other (ths : list pc) (lk : option nat) (tid : nat)
  (p p' : pc) :
  lock_ok ths lk ->
  nth_error ths tid = Some p ->
  is_rebuilding_reader p = false ->
  is_rebuilding_reader p' = false ->
  lock_ok (set_nth tid p' ths) lk.
Proof.
  intros [Hlen Hiff] Hp Hnp Hnp'. split.
  - intros t Ht. rewrite length_set_nth. auto.
  - intros t q Hq.
    apply nth_error_set_nth in Hq as [(-> & -> & _) | (Hne & Hq)].
    + rewrite Hnp'. split; [discriminate|].
      intros Hl. apply (Hiff tid p Hp) in Hl. congruence.
    + now apply Hiff.
Qed.

Lemma lock_ok_spawn (ths : list pc) (lk : option nat) (q : pc) :
  lock_ok ths lk ->
  is_rebuilding_reader q = false ->
  lock_ok (ths ++ [q]) lk.
Proof.
  intros [Hlen Hiff] Hq. split.
  - intros t Ht. rewrite length_app. specialize (Hlen t Ht). simpl. lia.
  - intros t p Hp.
    destruct (Nat.lt_ge_cases t (length ths)) as [Hlt|Hge].
    + rewrite nth_error_app1 in Hp by assumption. now apply Hiff.
    + rewrite nth_error_app2 in Hp by assumption.
      destruct (t - length ths)%nat as [|n] eqn:E; simpl in Hp.
      * injection Hp as <-. rewrite Hq. split; [discriminate|].
        intros Hl. specialize (Hlen t Hl). lia.
      * now destruct n.
Qed.

Lemma lock_ok_acquire (ths : list pc) (tid : nat) (p : pc) (t : Z) :
  lock_ok ths None ->
  nth_error ths tid = Some p ->
  lock_ok (set_nth tid (G_fetching t) ths) (Some tid).
Proof.
  intros [Hlen Hiff] Hp. split.
  - intros t' [= <-]. rewrite length_set_nth.
    apply nth_error_Some. congruence.
  - intros t' q Hq.
    apply nth_error_set_nth in Hq as [(-> & -> & _) | (Hne & Hq)].
    + split; reflexivity.
    + split.
      * intros Hr. apply (Hiff t' q Hq) in Hr. discriminate.
      * intros [= E]. congruence.
Qed.

Lemma lock_ok_release (ths : list pc) (lk : option nat) (tid : nat)
  (t : Z) (p' : pc) :
  lock_ok ths lk ->
  nth_error ths tid = Some (G_fetching t) ->
  is_rebuilding_reader p' = false ->
  lock_ok (set_nth tid p' ths) None.
Proof.
  intros [Hlen Hiff] Hp Hnp'.
  assert (Hlk : lk = Some tid) by now apply (Hiff tid _ Hp).
  split; [discriminate|].
  intros t' q Hq.
  apply nth_error_set_nth in Hq as [(-> & -> & _) | (Hne & Hq)].
  - rewrite Hnp'. split; discriminate.
  - split; [|discriminate].
    intros Hr. apply (Hiff t' q Hq) in Hr. congruence.
Qed.

Lemma run_thread_lock_ok (clock : Z) (st : state) (lk : option nat)
  (ths : list pc) (tid : nat) (io : rebuild_io) (r : step_result) :
  lock_ok ths lk ->
  run_thread clock st lk ths tid io = Some r ->
  lock_ok (sr_threads r) (sr_lock r).
Proof.
  intros Hok Hrun. thread_cases Hrun;
    try (apply lock_ok_spawn; [|reflexivity]);
    try (eapply lock_ok_step_other; [eassumption|eassumption|reflexivity..];
         fail);
    try (eapply lock_ok_step_other;
         [eassumption|eassumption|reflexivity|now destruct restart]; fail);
    try (eapply lock_ok_release; [eassumption|eassumption|reflexivity]; fail).
  match goal with
  | H : lock_free ?l = true |- _ => apply lock_free_none in H; subst l
  end.
  eapply lock_ok_acquire; eassumption.
Qed.

Lemma step_lock_invariant (a : action) (w w' : world) :
  lock_invariant w -> step a w = Some w' -> lock_invariant w'.
Proof.
  unfold lock_invariant. intros Hok Hstep.
  destruct a as [dt|p|tid io]; simpl in Hstep.
  - destruct (0 <=? dt)%Z; [|discriminate]. now injection Hstep as <-.
  - destruct (is_entry p) eqn:Hp; [|discriminate].
    injection Hstep as <-. cbn. apply lock_ok_spawn; [assumption|].
    now destruct p.
  - destruct (run_thread (now w) (shared w) (lock w) (threads w) tid io)
      as [r|] eqn:Hrun; [|discriminate].
    injection Hstep as <-. cbn.
    eapply run_thread_lock_ok; eassumption.
Qed.

Lemma run_lock_invariant (acts : list action) (w w' : world) :
  lock_invariant w -> run acts w = Some w' -> lock_invariant w'.
Proof.
  revert w; induction acts as [|a acts IH]; simpl; intros w Hinv Hrun.
  - now injection Hrun as <-.
  - destruct (step a w) as [w1|] eqn:Hstep; [|discriminate].
    apply (IH w1); [|assumption].
    eapply step_lock_invariant; eassumption.
Qed.

(** A step that changes the cache entry is taken with the lock free or
    by the reader that holds it. *)
Lemma run_thread_cache_change (clock : Z) (st : state) (lk : option nat)
  (ths : list pc) (tid : nat) (io : rebuild_io) (r : step_result) :
  run_thread clock st lk ths tid io = Some r ->
  cache_of (sr_shared r) = cache_of st \/
  lk = None \/
  exists t, nth_error ths tid = Some (G_fetching t).
Proof.
  intros Hrun. thread_cases Hrun; auto;
    try (right; left; now apply lock_free_none);
    try (right; right; eexists; reflexivity).
Qed.

(** X16. Mutual exclusion on the cache: in every state the program
    reaches, at most one reader is inside its rebuild, that reader holds
    the lock, and while it does no step of another thread, worker or
    route, changes the cache entry. *)
Theorem rebuilding_reader_owns_the_cache
  (cfg : settings) (t0 : Z) (acts : list action) (w : world) :
  run acts (initial_world cfg t0) = Some w ->
  (forall tid tid' t t',
     nth_error (threads w) tid = Some (G_fetching t) ->
     nth_error (threads w) tid' = Some (G_fetching t') ->
     tid = tid' /\ lock w = Some tid) /\
  (forall holder other io w',
     lock w = Some holder -> other <> holder ->
     step (Step other io) w = Some w' ->
     cache_of (shared w') = cache_of (shared w) /\ lock w' = Some holder).
Proof.
  intros Hrun.
  assert (Hinv : lock_invariant w).
  { apply (run_lock_invariant acts (initial_world cfg t0)); [|assumption].
    split; [discriminate|]. intros tid p Hp. now destruct tid. }
  destruct Hinv as [Hlen Hiff]. split.
  - intros tid tid' t t' H1 H2.
    assert (L1 : lock w = Some tid) by now apply (Hiff tid _ H1).
    assert (L2 : lock w = Some tid') by now apply (Hiff tid' _ H2).
    split; congruence.
  - intros holder other io w' Hlock Hne Hstep. simpl in Hstep.
    destruct (run_thread (now w) (shared w) (lock w) (threads w) other io)
      as [r|] eqn:Hr; [|discriminate].
    injection Hstep as <-. cbn.
    assert (Hnot : forall t, nth_error (threads w) other <> Some (G_fetching t)).
    { intros t Ht.
      assert (lock w = Some other) by now apply (Hiff other _ Ht).
      congruence. }
    split.
    + destruct (run_thread_cache_change _ _ _ _ _ _ _ Hr)
        as [Hc | [Hn | (t & Ht)]]; [exact Hc|congruence|].
      now apply Hnot in Ht.
    + clear Hlen Hiff. thread_cases Hr; try exact Hlock;
        try (match goal with
             | H : lock_free ?l = true |- _ =>
                 apply lock_free_none in H; congruence
             end).
      exfalso. eapply Hnot. reflexivity.
Qed.

Lemma create_rss_feed_ok (cfg : settings) (io : rebuild_io)
  (entries : list entry_data) :
  sorted_desc entries -> document_ok (create_rss_feed cfg io entries).
Proof.
  intros Hs. unfold document_ok. cbn [rss_items create_rss_feed]. split.
  - rewrite length_firstn. lia.
  - rewrite <- (firstn_skipn MAX_ENTRIES entries) in Hs.
    now apply sorted_desc_app in Hs.
Qed.

Lemma cache_hit_data (st : state) (t : Z) (d : rss_xml) :
  cache_hit st t = Some d -> data (cache_of st) = Some d.
Proof. intros H. now apply cache_hit_iff in H. Qed.

Lemma served_to_seen (tid tid' : nat) (seen : list observation)
  (d : rss_xml) :
  In d (served_to tid (map (pair tid') seen)) -> In (Served d) seen.
Proof.
  induction seen as [|[e|d'] seen IH]; simpl; [contradiction| |].
  - intros H. right. now apply IH.
  - destruct (Nat.eqb tid' tid); simpl.
    + intros [<- | H]; [now left|right; now apply IH].
    + intros H. right. now apply IH.
Qed.

Lemma served_in_events (t : list event) (d : rss_xml) :
  ~ In (Served d) (map Ev t).
Proof. intros H. apply in_map_iff in H as (e & He & _). discriminate. Qed.

Lemma run_thread_documents (clock : Z) (st : state) (lk : option nat)
  (ths : list pc) (tid : nat) (io : rebuild_io) (r : step_result) :
  (forall d, data (cache_of st) = Some d -> document_ok d) ->
  Forall pc_document_ok ths ->
  run_thread clock st lk ths tid io = Some r ->
  (forall d, data (cache_of (sr_shared r)) = Some d -> document_ok d) /\
  Forall pc_document_ok (sr_threads r) /\
  (forall d, In (Served d) (sr_seen r) -> document_ok d).
Proof.
  intros Hcache Hths Hrun.
  assert (Hreb : forall entries,
            outcome (fetch_all_releases (io_repos io) (io_net io) (io_order io))
              = Ok entries ->
            document_ok (create_rss_feed (settings_of st) io entries)).
  { intros entries Hout. apply create_rss_feed_ok.
    eapply fetch_all_releases_sorted; eassumption. }
  thread_cases Hrun;
    try pose proof (Forall_nth_error _ _ _ _ Hths Hpc) as Hdoc;
    (split; [|split]);
    try (apply Forall_app; split; [|repeat constructor]);
    try (apply Forall_set_nth; [|assumption]; simpl; auto; fail);
    try (apply Forall_set_nth; [|assumption];
         destruct restart; simpl; auto; fail);
    try exact Hcache;
    try (cbn; intros d [= <-]; auto; fail);
    try (cbn; intros d; discriminate);
    try (intros d Hin; simpl in Hin; intuition discriminate);
    try (intros d Hin; apply served_in_events in Hin; contradiction).
  - intros d [H | [[= <-] | []]]; [discriminate|].
    apply Hcache. eapply cache_hit_data; eassumption.
  - intros d Hin. apply in_app_or in Hin as [Hin | [[= <-] | []]].
    + now apply served_in_events in Hin.
    + cbn. auto.
  - intros d [H | Hin]; [discriminate|].
    now apply served_in_events in Hin.
Qed.

Lemma step_documents_ok (a : action) (w w' : world) :
  documents_ok w -> step a w = Some w' -> documents_ok w'.
Proof.
  intros (Hcache & Hths & Hhist) Hstep.
  destruct a as [dt|p|tid io]; simpl in Hstep.
  - destruct (0 <=? dt)%Z; [|discriminate]. injection Hstep as <-.
    split; [exact Hcache|split; [exact Hths|exact Hhist]].
  - destruct (is_entry p) eqn:Hp; [|discriminate].
    injection Hstep as <-.
    split; [exact Hcache|split; [|exact Hhist]]. cbn.
    apply Forall_app. split; [assumption|].
    constructor; [|constructor]. now destruct p.
  - destruct (run_thread (now w) (shared w) (lock w) (threads w) tid io)
      as [r|] eqn:Hrun; [|discriminate].
    injection Hstep as <-.
    destruct (run_thread_documents _ _ _ _ _ _ _ Hcache Hths Hrun)
      as (Hc' & Ht' & Hs').
    split; [exact Hc'|split; [exact Ht'|]]. cbn [history].
    intros tid' d Hin. rewrite served_to_app in Hin.
    apply in_app_or in Hin as [Hin | Hin]; [eauto|].
    apply Hs'. eapply served_to_seen; eassumption.
Qed.

Lemma run_documents_ok (acts : list action) (w w' : world) :
  documents_ok w -> run acts w = Some w' -> documents_ok w'.
Proof.
  revert w; induction acts as [|a acts IH]; simpl; intros w Hinv Hrun.
  - now injection Hrun as <-.
  - destruct (step a w) as [w1|] eqn:Hstep; [|discriminate].
    apply (IH w1); [|assumption].
    eapply step_documents_ok; eassumption.
Qed.

(** X17. Whatever happens from startup on, the document in the cache and
    every document [get_cached_data] hands to a reader has at most 100
    items, in descending order of [updated]. *)
Theorem served_documents_are_bounded_and_sorted
  (cfg : settings) (t0 : Z) (acts : list action) (w : world) :
  run acts (initial_world cfg t0) = Some w ->
  (forall d, data (cache_of (shared w)) = Some d ->
     (length (rss_items d) <= MAX_ENTRIES)%nat /\ sorted_desc (rss_items d)) /\
  (forall tid d, In d (served_to tid (history w)) ->
     (length (rss_items d) <= MAX_ENTRIES)%nat /\ sorted_desc (rss_items d)).
Proof.
  intros Hrun.
  assert (Hinv : documents_ok w).
  { apply (run_documents_ok acts (initial_world cfg t0)); [|assumption].
    split; [cbn; discriminate|split; [constructor|cbn; contradiction]]. }
  destruct Hinv as (Hc & _ & Hs). split; [exact Hc|exact Hs].
Qed.

(** ** After a stop *)

Lemma stopped_step (a : action) (w w' : world) :
  stopped w ->
  is_arrival a = false ->
  step a w = Some w' ->
  stopped w' /\ shared w' = shared w /\ history w' = history w /\
  lock w' = lock w.
Proof.
  intros [Hflag Hidle] Harr Hstep.
  destruct a as [dt|p|tid io]; simpl in Hstep; [|discriminate|].
  - destruct (0 <=? dt)%Z; [|discriminate]. injection Hstep as <-.
    repeat split; assumption.
  - destruct (run_thread (now w) (shared w) (lock w) (threads w) tid io)
      as [r|] eqn:Hrun; [|discriminate].
    injection Hstep as <-. cbn.
    assert (Hp : forall p, nth_error (threads w) tid = Some p ->
                           worker_idle p = true).
    { intros p Hp. rewrite forallb_forall in Hidle.
      apply Hidle. eapply nth_error_In; eassumption. }
    assert (Hset : forall p, worker_idle p = true ->
              forallb worker_idle (set_nth tid p (threads w)) = true).
    { intros p Hi. apply forallb_forall. intros q Hq.
      apply In_nth_error in Hq as [n Hn].
      apply nth_error_set_nth in Hn as [(_ & -> & _) | (_ & Hn)];
        [assumption|].
      rewrite forallb_forall in Hidle. apply Hidle.
      eapply nth_error_In; eassumption. }
    thread_cases Hrun;
      try (specialize (Hp _ eq_refl); discriminate);
      try congruence;
      rewrite ?app_nil_r; repeat split; auto; unfold stopped; cbn; auto.
Qed.

(** X18. Once the worker is stopped and nothing else is under way (every
    thread is a worker between two ticks or has ended), the system stays
    quiet as long as no new request arrives: whatever the workers do and
    however much time passes, no rebuild takes place, nothing is logged,
    and the cache entry, the settings and the flag stay as they are. *)
Theorem stopped_system_stays_quiet (acts : list action) (w w' : world) :
  stopped w ->
  existsb is_arrival acts = false ->
  run acts w = Some w' ->
  stopped w' /\
  shared w' = shared w /\
  history w' = history w /\
  fetches (history w') = fetches (history w).
Proof.
  intros Hs Hno Hrun.
  assert (H : stopped w' /\ shared w' = shared w /\ history w' = history w).
  { revert w Hs Hrun. induction acts as [|a acts IH]; simpl in *;
      intros w Hs Hrun.
    - injection Hrun as <-. auto.
    - apply orb_false_elim in Hno as [Ha Hacts].
      destruct (step a w) as [w1|] eqn:Hstep; [|discriminate].
      destruct (stopped_step a w w1 Hs Ha Hstep) as (Hs1 & Hsh & Hh & _).
      destruct (IH Hacts w1 Hs1 Hrun) as (Hs' & Hsh' & Hh').
      split; [exact Hs'|split; congruence]. }
  destruct H as (H1 & H2 & H3).
  split; [exact H1|split; [exact H2|split; [exact H3|now rewrite H3]]].
Qed.

(** X19. After a stop, a worker that sleeps ends at its next wake-up:
    when it is next scheduled after its sleep it finds the flag down,
    goes to the loop test and leaves, without touching the cache. *)
Theorem stopped_worker_ends_at_wake_up
  (w : world) (tid : nat) (wake : Z) (io : rebuild_io) :
  auto_refresh_running (shared w) = false ->
  nth_error (threads w) tid = Some (W_sleeping wake) ->
  (wake <= now w)%Z ->
  exists w',
    run [Step tid io; Step tid io] w = Some w' /\
    nth_error (threads w') tid = Some Finished /\
    shared w' = shared w /\
    fetches (history w') = fetches (history w).
Proof.
  intros Hflag Hpc Hwake.
  destruct (woken_worker_leaves_when_flag_down (now w) (shared w) (lock w)
              (threads w) tid io wake Hpc Hwake Hflag) as [H1 H2].
  eexists. split.
  - cbn [run step]. rewrite H1. unfold goto. cbn.
    rewrite H2. unfold goto. cbn. reflexivity.
  - cbn. rewrite !app_nil_r. repeat split.
    erewrite nth_error_set_nth_eq; [reflexivity|].
    eapply nth_error_set_nth_eq; eassumption.
Qed.

(** ** A refresh and a reader *)

(** X20. A forced refresh does not share its rebuild with readers: it
    empties the cache under the lock and fetches outside it, so a reader
    that gets the lock in between finds the cache empty, however fresh it
    was, and rebuilds as well; the two requests cost two invocations of
    [fetch_all_releases]. *)
Theorem refresh_does_not_coalesce
  (w : world) (a b : nat) (io_a io_b : rebuild_io) :
  lock w = None ->
  a <> b ->
  nth_error (threads w) a = Some Refresh_clearing ->
  nth_error (threads w) b = Some G_waiting ->
  exists w' rss,
    run [Step a io_a; Step b io_b; Step a io_a; Step b io_b] w = Some w' /\
    fetches (history w') = (fetches (history w) + 2)%nat /\
    nth_error (threads w') a = Some (Refresh_storing rss) /\
    nth_error (threads w') b = Some Finished /\
    lock w' = None.
Proof.
  intros Hlock Hab Ha Hb.
  destruct (rebuild_run (settings_of (shared w)) io_a)
    as (ta & ea & Hra & _ & Hca).
  destruct (rebuild_run (settings_of (shared w)) io_b)
    as (tb & eb & Hrb & _ & Hcb).
  assert (Hb1 : nth_error (set_nth a Refresh_fetching (threads w)) b
                = Some G_waiting)
    by (rewrite nth_error_set_nth_neq; assumption).
  assert (Ha2 : nth_error
                  (set_nth b (G_fetching (now w))
                     (set_nth a Refresh_fetching (threads w))) a
                = Some Refresh_fetching).
  { rewrite nth_error_set_nth_neq by congruence.
    eapply nth_error_set_nth_eq; eassumption. }
  assert (Hb2 : nth_error
                  (set_nth b (G_fetching (now w))
                     (set_nth a Refresh_fetching (threads w))) b
                = Some (G_fetching (now w)))
    by (eapply nth_error_set_nth_eq; eassumption).
  eexists _, (create_rss_feed (settings_of (shared w)) io_a ea). split.
  - cbn [run step]. unfold run_thread at 1. rewrite Ha, Hlock.
    cbn [lock_free goto now shared lock threads history
         sr_shared sr_lock sr_threads sr_seen].
    unfold run_thread at 1. rewrite Hb1.
    cbn [lock_free cache_hit clear_cache set_cache cache_of data goto
         now shared lock threads history sr_shared sr_lock sr_threads sr_seen].
    unfold run_thread at 1. rewrite Ha2.
    cbn [clear_cache set_cache settings_of]. rewrite Hra.
    cbn [goto snd now shared lock threads history
         sr_shared sr_lock sr_threads sr_seen].
    unfold run_thread at 1.
    rewrite (nth_error_set_nth_neq a b _ _ Hab), Hb2.
    cbn [clear_cache set_cache settings_of]. rewrite Hrb.
    cbn [goto snd now shared lock threads history
         sr_shared sr_lock sr_threads sr_seen].
    reflexivity.
  - cbn [history threads lock].
    rewrite !fetches_app, !map_app, !fetches_app, !fetches_events, Hca, Hcb.
    split; [cbn; lia|]. split; [|split; [|reflexivity]].
    + rewrite nth_error_set_nth_neq by congruence.
      eapply nth_error_set_nth_eq. eassumption.
    + eapply nth_error_set_nth_eq.
      rewrite nth_error_set_nth_neq by assumption. eassumption.
Qed.

(** ** The requests of one repository *)

(** X21. [fetch_repo_releases] asks the network once or twice: always one
    [requests.head] on the repository's [releases.atom], with the timeout
    [REQUEST_TIMEOUT] and with the token, when there is one, in the
    [Authorization] header; then, exactly when that answered 200, one
    [feedparser.parse] of the same URL, which carries no header. *)
Theorem fetch_repo_releases_network_use (r : pystr) (w : response) :
  let url := releases_atom_url r in
  let h := requests_head url (request_headers (github_token w))
             (Some REQUEST_TIMEOUT) in
  (head w = HeadStatus 200 /\
   requests_of (trace (fetch_repo_releases r w)) = [h; feedparser_parse url]
   \/
   head w <> HeadStatus 200 /\
   requests_of (trace (fetch_repo_releases r w)) = [h]) /\
  (In (py "Authorization", py "token " ++ github_token w)
      (request_headers (github_token w)) <-> github_token w <> []) /\
  (forall v, In (py "Authorization", v) (request_headers (github_token w)) ->
     v = py "token " ++ github_token w).
Proof.
  intros url h. split; [|split].
  - pose proof (content_fetch_iff_head_200 r w) as Hiff.
    fold url in Hiff.
    destruct (fetch_repo_releases_requests r w) as [E | E];
      fold url in E; fold h in E; rewrite E in *.
    + right. split; [|reflexivity].
      intros H200. apply Hiff in H200. destruct H200 as [H | []].
      discriminate H.
    + left. split; [|reflexivity].
      apply Hiff. right. left. reflexivity.
  - unfold request_headers. destruct (github_token w) as [|c tok]; cbn.
    + split; [|congruence].
      intros [H | [H | []]]; discriminate H.
    + split; [discriminate|]. intros _. right. right. left. reflexivity.
  - intros v. unfold request_headers.
    destruct (github_token w) as [|c tok]; cbn.
    + intros [H | [H | []]]; discriminate H.
    + intros [H | [H | [H | []]]]; try discriminate H.
      now inversion H.
Qed.

(** ** Settings that could not be saved *)

(** X22. [save_settings_route] puts the values of a valid form into the
    running settings before it writes the file.  When the write fails the
    route stops there: it leaves the cache alone and fetches nothing, but
    the new values stay in force, and from then on the cache is judged by
    the new duration. *)
Theorem unsaved_settings_take_effect
  (w : world) (tid : nat) (duration interval : Z) (startup : bool)
  (io : rebuild_io) :
  nth_error (threads w) tid
    = Some (Settings_start duration interval startup false) ->
  (30 <= duration <= 3600)%Z ->
  (60 <= interval <= 86400)%Z ->
  exists w',
    step (Step tid io) w = Some w' /\
    nth_error (threads w') tid = Some Finished /\
    settings_of (shared w') =
      {| cache_duration := duration; auto_refresh_interval := interval;
         startup_refresh := startup |} /\
    cache_of (shared w') = cache_of (shared w) /\
    history w' = history w /\
    forall t d,
      cache_hit (shared w') t = Some d <->
      data (cache_of (shared w)) = Some d /\
      (t - timestamp (cache_of (shared w)) < duration)%Z.
Proof.
  intros Hpc Hd Hi.
  eexists. split.
  - cbn [step]. unfold run_thread. rewrite Hpc.
    replace ((30 <=? duration) && (duration <=? 3600))%Z with true
      by (symmetry; apply andb_true_iff; split; apply Z.leb_le; lia).
    replace ((60 <=? interval) && (interval <=? 86400))%Z with true
      by (symmetry; apply andb_true_iff; split; apply Z.leb_le; lia).
    cbn [negb goto]. reflexivity.
  - cbn [threads shared history sr_shared sr_threads sr_seen sr_lock
         set_settings settings_of cache_of map].
    rewrite app_nil_r.
    split; [eapply nth_error_set_nth_eq; eassumption|].
    repeat (split; [reflexivity|]).
    intros t d. rewrite cache_hit_iff. reflexivity.
Qed.

(** ** A worker and a negative interval *)

(** The settings route refuses an interval below 60, but the settings
    file is taken as it is.  With a negative interval the worker ends at
    its first sleep: the flag stays up, and nothing is rebuilt. *)
Lemma worker_ends_on_negative_interval
  (clock : Z) (st : state) (lk : option nat) (ths : list pc) (tid : nat)
  (io : rebuild_io) :
  nth_error ths tid = Some W_loop ->
  auto_refresh_running st = true ->
  (auto_refresh_interval (settings_of st) < 0)%Z ->
  run_thread clock st lk ths tid io = goto st lk ths tid Finished [].
Proof.
  intros Hpc Hflag Hneg. unfold run_thread. rewrite Hpc, Hflag.
  apply Z.ltb_lt in Hneg. now rewrite Hneg.
Qed.

End Aggregator.

(** * Instances

    The statements above at the sample inputs. *)




Lemma step_preserves_cache_invariant_witness :
  exists w',
    step unescape_plain (Step 0 example_io)
      {| now := 1031; shared := initial_state example_settings;
         lock := Some 0%nat; threads := [G_fetching 1000]; history := [] |}
      = Some w' /\
    world_invariant w'.
Proof.
  eexists. split; [reflexivity|].
  eapply (step_preserves_cache_invariant unescape_plain (Step 0 example_io)
            {| now := 1031; shared := initial_state example_settings;
               lock := Some 0%nat; threads := [G_fetching 1000];
               history := [] |}).
  - unfold world_invariant, cache_invariant; simpl.
    split; [lia|]. split; [repeat constructor; simpl; lia|].
    split; [congruence|lia].
  - reflexivity.
Defined.

(** A repository whose document is flagged as not well-formed while its
    entries were recovered is no failure: it contributes its first entry. *)
Lemma flagged_feed_with_entries_is_used :
  error_kind (example_bozo "2024-02-01T10:00:00Z") = None /\
  exists item,
    outcome (fetch_all_releases unescape_plain [py "a/x"]
               (fun _ => example_bozo "2024-02-01T10:00:00Z") [0%nat])
      = Ok [item] /\
    repo item = py "a/x".
Proof. split; [reflexivity|]. eexists. split; reflexivity. Qed.

Lemma fetch_all_releases_tolerates_failures_witness :
  exists items,
    outcome (fetch_all_releases unescape_plain example_repos
               (io_net example_io) (io_order example_io)) = Ok items /\
    contribution unescape_plain example_repos (io_net example_io) 1 = [] /\
    Permutation items
      (flat_map (contribution unescape_plain example_repos (io_net example_io))
         (filter (no_error (io_net example_io))
            (seq 0 (length example_repos)))).
Proof.
  destruct (fetch_all_releases_tolerates_failures unescape_plain
              example_repos (io_net example_io) (io_order example_io))
    as (items & Hout & Hfail & Hrest).
  exists items. split; [exact Hout|]. split.
  - apply (Hfail 1%nat TimedOut). reflexivity.
  - destruct Hrest as [Hperm _]; [simpl; apply perm_swap|].
    exact Hperm.
Defined.

Lemma get_cached_data_caches_empty_result_no_repository :
  exists tr rss,
    get_cached_data unescape_plain (initial_state example_settings) 1000
      example_io_empty =
      (tr, Ok (rss, store_cache (initial_state example_settings) rss 1000)) /\
    rss_items rss = [] /\
    get_cached_data unescape_plain
      (store_cache (initial_state example_settings) rss 1000) 1029 example_io =
      ([Log Info msg_cache_hit],
       Ok (rss, store_cache (initial_state example_settings) rss 1000)).
Proof.
  destruct (get_cached_data_caches_empty_result unescape_plain
              (initial_state example_settings) 1000 example_io_empty)
    as (tr & rss & Hget & Hitems & _ & _ & _ & Hlater).
  - reflexivity.
  - left. reflexivity.
  - exists tr, rss. split; [exact Hget|]. split; [exact Hitems|].
    apply Hlater. simpl. lia.
Qed.

Lemma summary_unescaped_then_capped_witness :
  exists item,
    outcome (fetch_repo_releases unescape_plain (py "a/x")
               (example_ok "2024-02-01T10:00:00Z")) = Ok [item] /\
    summary item = py "Bug fixes and more".
Proof.
  destruct (summary_unescaped_then_capped unescape_plain (py "a/x")
              (example_ok "2024-02-01T10:00:00Z")
              (example_entry "2024-02-01T10:00:00Z")
              (py "Bug fixes and more"))
    as (item & Hout & _ & Hshort).
  - reflexivity.
  - reflexivity.
  - discriminate.
  - exists item. split; [exact Hout|].
    apply Hshort. unfold unescape_plain. simpl. lia.
Defined.


(** ** Files, routes and schedules at the sample inputs *)

Lemma loaded_repo_has_owner_and_name_witness :
  In (py "octo/cat") (fst (load_repos example_repos_file)) /\
  exists owner name,
    py "octo/cat" = owner ++ slash :: name /\
    repo_name (py "octo/cat") = name.
Proof.
  assert (H : In (py "octo/cat") (fst (load_repos example_repos_file)))
    by (vm_compute; left; reflexivity).
  split; [exact H|].
  destruct (loaded_repo_has_owner_and_name unescape_plain example_repos_file
              (py "octo/cat") H)
    as (owner & name & Hr & _ & _ & _ & _ & Hname & _).
  exists owner, name. split; [exact Hr|exact Hname].
Defined.

Lemma aggregate_rss_small_limit_witness :
  exists tr st1 rss,
    aggregate_rss unescape_plain example_warm_state (Limit 1) 1010
      example_io example_io = (tr, (st1, (200%Z, Some rss))) /\
    count_fetch_all tr = 1%nat.
Proof.
  destruct (aggregate_rss_small_limit unescape_plain example_warm_state
              1 1010 example_io example_io)
    as (tr & rss & st1 & tr' & entries & _ & _ & Hagg & Hcount & _).
  - lia.
  - exists (tr ++ tr'), st1. eexists. split; [exact Hagg|exact Hcount].
Defined.

Lemma aggregate_rss_large_limit_witness :
  exists tr st1 rss,
    aggregate_rss unescape_plain example_warm_state (Limit 250) 1010
      example_io example_io = (tr, (st1, (200%Z, Some rss))).
Proof.
  destruct (aggregate_rss_large_limit unescape_plain example_warm_state
              (Limit 250) 1010 example_io example_io)
    as (tr & rss & st1 & _ & Hagg).
  - right. right. exists 250%Z. split; [reflexivity|lia].
  - exists tr, st1, rss. exact Hagg.
Defined.

Lemma status_agrees_with_cache_witness :
  cache_valid (status true example_warm_state 1010 example_repos_file
                 Missing []) = true /\
  cache_age_seconds (status true example_warm_state 1010 example_repos_file
                       Missing []) = 10%Z.
Proof.
  destruct (status_agrees_with_cache true example_warm_state 1010
              example_repos_file Missing [])
    as (Hvalid & _ & _ & Hage).
  - unfold cache_invariant. simpl. split; [lia|discriminate].
  - simpl. lia.
  - split.
    + apply Hvalid. vm_compute. discriminate.
    + apply Hage. simpl. discriminate.
Defined.


Lemma rebuilding_reader_owns_the_cache_witness :
  exists w,
    run unescape_plain (firstn 4 (example_two_readers 5))
      (initial_world example_settings 1000) = Some w /\
    nth_error (threads w) 0 = Some (G_fetching 1000) /\
    lock w = Some 0%nat.
Proof.
  eexists. split; [vm_compute; reflexivity|]. split; [reflexivity|].
  eapply (proj1 (rebuilding_reader_owns_the_cache unescape_plain
                   example_settings 1000 (firstn 4 (example_two_readers 5))
                   _ ltac:(vm_compute; reflexivity))
            0%nat 0%nat 1000%Z 1000%Z);
    reflexivity.
Defined.

Lemma served_documents_are_bounded_and_sorted_witness :
  exists w d,
    run unescape_plain (example_two_readers 5)
      (initial_world example_settings 1000) = Some w /\
    served_to 1 (history w) = [d] /\
    (length (rss_items d) <= MAX_ENTRIES)%nat.
Proof.
  eexists. eexists. split; [vm_compute; reflexivity|].
  split; [vm_compute; reflexivity|].
  eapply (proj2 (served_documents_are_bounded_and_sorted unescape_plain
                   example_settings 1000 (example_two_readers 5)
                   _ ltac:(vm_compute; reflexivity))
            1%nat).
  vm_compute. left. reflexivity.
Defined.

Lemma stopped_system_stays_quiet_witness :
  exists w',
    run unescape_plain [Tick 50; Step 0 example_io; Step 0 example_io]
      example_stopped = Some w' /\
    threads w' = [Finished] /\
    shared w' = shared example_stopped /\
    history w' = [].
Proof.
  eexists. split; [vm_compute; reflexivity|]. split; [reflexivity|].
  destruct (stopped_system_stays_quiet unescape_plain
              [Tick 50; Step 0 example_io; Step 0 example_io]
              example_stopped _
              ltac:(split; reflexivity) eq_refl
              ltac:(vm_compute; reflexivity))
    as (_ & Hshared & Hhistory & _).
  split; [exact Hshared|exact Hhistory].
Defined.

Lemma stopped_worker_ends_at_wake_up_witness :
  exists w',
    run unescape_plain [Step 0 example_io; Step 0 example_io]
      {| now := 1060; shared := shared example_stopped; lock := None;
         threads := [W_sleeping 1060]; history := [] |} = Some w' /\
    nth_error (threads w') 0 = Some Finished.
Proof.
  destruct (stopped_worker_ends_at_wake_up unescape_plain
              {| now := 1060; shared := shared example_stopped; lock := None;
                 threads := [W_sleeping 1060]; history := [] |}
              0%nat 1060%Z example_io)
    as (w' & Hrun & Hpc & _).
  - reflexivity.
  - reflexivity.
  - simpl. lia.
  - exists w'. split; [exact Hrun|exact Hpc].
Defined.

Lemma refresh_does_not_coalesce_witness :
  exists w',
    run unescape_plain
      [Step 0 example_io; Step 1 example_io;
       Step 0 example_io; Step 1 example_io]
      example_refresh_and_reader = Some w' /\
    fetches (history w') = 2%nat.
Proof.
  destruct (refresh_does_not_coalesce unescape_plain
              example_refresh_and_reader 0%nat 1%nat example_io example_io)
    as (w' & rss & Hrun & Hfetches & _).
  - reflexivity.
  - discriminate.
  - reflexivity.
  - reflexivity.
  - exists w'. split; [exact Hrun|exact Hfetches].
Defined.

Lemma unsaved_settings_take_effect_witness :
  exists w',
    step unescape_plain (Step 0 example_io) example_unsaved_settings
      = Some w' /\
    cache_hit (shared w') 1040 = Some example_document.
Proof.
  destruct (unsaved_settings_take_effect unescape_plain
              example_unsaved_settings 0%nat 3600%Z 600%Z false example_io)
    as (w' & Hstep & _ & _ & _ & _ & Hhit).
  - reflexivity.
  - lia.
  - lia.
  - exists w'. split; [exact Hstep|].
    apply Hhit. simpl. split; [reflexivity|lia].
Defined.


(** A repositories file that fails to decode after its second line: the
    invalid line read before the error has had its warning, and the list
    returned is empty although the first line was accepted. *)
Lemma load_repos_failing_part_way :
  load_repos (Unreadable [py "octo/cat" ++ [newline];
                          py "not a repo" ++ [newline]])
  = ([], [(2%nat, py "not a repo")]).
Proof. reflexivity. Qed.
